(** * The network-map component: distance, tick and highlight logic

    A shallow embedding of [src/components/map/index.tsx]: the per-edge
    distance function handed to the link force, the tick handler that
    writes screen positions into the SVG elements, the highlight
    function, the force configuration and the zoom handler.

    Conventions of the embedding.
    - [LinkI.depth] goes only through operations that are exact on
      IEEE doubles ([Math.min], [~~], a product and a sum of small
      integers), so it is modelled exactly: a rational, or one of the
      three special values NaN, +Infinity, -Infinity.  The table of
      distances is a plain object, looked up through its prototype, so
      the distance function can also return a string.
    - Coordinates, sizes and zoom factors go through [Math.sqrt],
      [Math.atan2], [Math.cos] and [Math.sin]; they are modelled as
      real numbers (finite, and without rounding).
    - Objects compared with [===] (the nodes) are references into a
      store; everything else is held by value.
    - A d3 selection is the list of the DOM elements it holds, each
      with its bound datum, its attributes and its inline styles;
      [attr] and [style] return the updated elements. *)

From Stdlib Require Import ZArith QArith Qminmax Qround Reals Lra Lia String List.
From stdpp Require Import gmap strings list fin_maps.

(** ** JavaScript numbers, as far as [getDistance] needs them *)

Module JsNumber.

Inductive number : Type :=
| NaN
| PosInf
| NegInf
| Fin (q : Q).

Definition ofZ (z : Z) : number := Fin (inject_Z z).

(** [Math.min(a, b)]: NaN if either argument is NaN, else the smaller. *)
Definition Math_min (a b : number) : number :=
  match a, b with
  | NaN, _ | _, NaN => NaN
  | NegInf, _ | _, NegInf => NegInf
  | PosInf, v | v, PosInf => v
  | Fin p, Fin q => Fin (if Qle_bool p q then p else q)
  end.

(** Truncation toward zero of a finite number. *)
Definition truncQ (q : Q) : Z := Z.quot (Qnum q) (Z.pos (Qden q)).

(** The signed 32-bit integer congruent to [z] modulo 2^32. *)
Definition wrap32 (z : Z) : Z := ((z + 2 ^ 31) mod 2 ^ 32 - 2 ^ 31)%Z.

(** ECMAScript [ToInt32]: NaN and the infinities give 0, a finite
    number is truncated and reduced modulo 2^32. *)
Definition ToInt32 (n : number) : Z :=
  match n with
  | Fin q => wrap32 (truncQ q)
  | NaN | PosInf | NegInf => 0%Z
  end.

(** The bitwise NOT operator [~n], whose result is again an int32. *)
Definition bitnot (n : number) : Z := Z.lnot (ToInt32 n).

(** [~~n], as the source writes its integer conversion. *)
Definition bitnot2 (n : number) : Z := bitnot (ofZ (bitnot n)).

(** The comparison [a <= b] of two numbers (false as soon as a NaN is
    involved). *)
Definition num_le (a b : number) : Prop :=
  match a, b with
  | NaN, _ | _, NaN => False
  | NegInf, _ => True
  | _, PosInf => True
  | Fin p, Fin q => (p <= q)%Q
  | _, _ => False
  end.

(** The mathematical truncation of a number, where it has one. *)
Definition truncation (n : number) : option Z :=
  match n with
  | Fin q => Some (truncQ q)
  | NaN | PosInf | NegInf => None
  end.

End JsNumber.

(** ** The view-model records ([./types])

    The declarations of [NodeI] and [LinkI] are imported by the
    component; the records below list the fields the component reads
    and, for a node, those the simulation writes.
    A node is an object that the force simulation, the selections and
    the links all share, so links hold references to nodes and a store
    gives each reference its current fields. *)

Module Types.

Export JsNumber.

Definition ref : Type := positive.

(** A node object.  [x] and [y] are the coordinates it holds when
    [hasX] and [hasY] say it holds them: a node arrives without, and
    the simulation puts them in, as it does [index], [vx] and [vy];
    [fx] and [fy] are the fixed position, if one is set.  The tick
    handler runs on nodes the simulation has been given. *)
Record NodeI : Type := {
  ieeeAddr : string;
  x : R;
  y : R;
  hasX : bool;
  hasY : bool;
  index : option nat;
  vx : option R;
  vy : option R;
  fx : option R;
  fy : option R
}.

(** [Source] and [Target] are node objects. *)
Record LinkI : Type := {
  source : ref;
  target : ref;
  sourceIeeeAddr : string;
  targetIeeeAddr : string;
  linkType : string;
  depth : number;
  relationship : Z;
  repeated : bool
}.

Record GraphI : Type := {
  nodes : list ref;
  links : list LinkI
}.

(** The fields of every node object, by reference. *)
Definition Store : Type := ref → NodeI.

(** The same link with another depth. *)
Definition withDepth (d : LinkI) (v : number) : LinkI :=
  {| source := source d; target := target d;
     sourceIeeeAddr := sourceIeeeAddr d; targetIeeeAddr := targetIeeeAddr d;
     linkType := linkType d; depth := v;
     relationship := relationship d; repeated := repeated d |}.

End Types.

(** ** [distancesMap] and [getDistance] *)

Module Distance.

Import Types.

(** The own properties of the object literal [distancesMap]. *)
Definition distancesMap : gmap string Z :=
  {[ "BrokenLink" := 450%Z;
     "Router2Router" := 300%Z;
     "Coordinator2Router" := 400%Z;
     "Coordinator2EndDevice" := 100%Z;
     "EndDevice2Router" := 100%Z ]}.

(** The names every object literal inherits from [Object.prototype]:
    eleven functions and the accessor [__proto__]; none of them is
    null or undefined. *)
Definition objectPrototype : list string :=
  [ "constructor"; "hasOwnProperty"; "isPrototypeOf"; "propertyIsEnumerable";
    "toLocaleString"; "toString"; "valueOf"; "__proto__";
    "__defineGetter__"; "__defineSetter__";
    "__lookupGetter__"; "__lookupSetter__" ].

(** What [distancesMap[k]] can give: a number of the table, or the
    member that [Object.prototype] holds under the name [k]. *)
Inductive property : Type :=
| Own (z : Z)
| Inherited (name : string).

(** [distancesMap[k]]: an own property first, then the prototype;
    [None] is [undefined]. *)
Definition get (k : string) : option property :=
  match distancesMap !! k with
  | Some z => Some (Own z)
  | None => if bool_decide (k ∈ objectPrototype) then Some (Inherited k) else None
  end.

(** What [getDistance] returns: a number, or, when the right operand
    of [+] is an inherited member, the string made of the decimal text
    of the left operand followed by the text of that member. *)
Inductive result : Type :=
| Length (z : Z)
| Text (n : Z) (member : string).

(** [n + p] for a number [n]: a sum of two numbers, a concatenation
    otherwise. *)
Definition plus (n : Z) (p : property) : result :=
  match p with
  | Own z => Length (n + z)
  | Inherited name => Text n name
  end.

(** The sum [50 * depth + distance], when it is one, is taken on
    integers below 2^53, where the arithmetic of doubles is exact. *)
Definition getDistance (d : LinkI) : result :=
  let distance := default (Own 200%Z) (get (linkType d)) in
  let depth := bitnot2 (Math_min (ofZ 4) (depth d)) in
  plus (50 * depth) distance.

(** The table of base distances, read as a function of the link type. *)
Definition baseDistance (lt : string) : Z :=
  if String.eqb lt "BrokenLink" then 450
  else if String.eqb lt "Router2Router" then 300
  else if String.eqb lt "Coordinator2Router" then 400
  else if String.eqb lt "Coordinator2EndDevice" then 100
  else if String.eqb lt "EndDevice2Router" then 100
  else 200.

(** A link between two routers, at the given depth. *)
Definition routerLink (v : number) : LinkI :=
  {| source := 1%positive; target := 2%positive;
     sourceIeeeAddr := "0x01"; targetIeeeAddr := "0x02";
     linkType := "Router2Router"; depth := v;
     relationship := 1; repeated := false |}.

(** The same link with another type. *)
Definition withLinkType (d : LinkI) (lt : string) : LinkI :=
  {| source := source d; target := target d;
     sourceIeeeAddr := sourceIeeeAddr d; targetIeeeAddr := targetIeeeAddr d;
     linkType := lt; depth := depth d;
     relationship := relationship d; repeated := repeated d |}.

End Distance.

(** ** The [Math] functions on coordinates *)

Module Math.

Local Open Scope R_scope.

(** [Math.atan2(y, x)]: the angle of the point [(x, y)], in (-PI, PI],
    and 0 at the origin. *)
Definition atan2 (y x : R) : R :=
  match total_order_T 0 x with
  | inleft (left _) => atan (y / x)
  | inleft (right _) =>
      match total_order_T 0 y with
      | inleft (left _) => PI / 2
      | inleft (right _) => 0
      | inright _ => - (PI / 2)
      end
  | inright _ =>
      if Rle_dec 0 y then atan (y / x) + PI else atan (y / x) - PI
  end.

Definition max (a b : R) : R := Rmax a b.
Definition min (a b : R) : R := Rmin a b.

End Math.

(** ** The label position helpers [angle], [xpos], [ypos] *)

Module Geometry.

Import Types.
Local Open Scope R_scope.

Definition angle (s t : NodeI) : R := Math.atan2 (y t - y s) (x t - x s).
Definition xpos (offset : R) (s t : NodeI) : R := offset * cos (angle s t) + x s.
Definition ypos (offset : R) (s t : NodeI) : R := offset * sin (angle s t) + y s.

(** The clamp as the source writes it in line. *)
Definition clamp (lo hi v : R) : R := Math.max lo (Math.min hi v).

(** What clamping a value into the interval [lo, hi] means. *)
Definition clamped (lo hi v r : R) : Prop :=
  lo <= r <= hi ∧ (lo <= v <= hi → r = v) ∧ (v < lo → r = lo) ∧ (hi < v → r = hi).

End Geometry.

(** ** The zoom transform of d3-zoom

    [applyX], [applyY] and [toString] are those of the library:
    a scale by [k] followed by a translation by [(x, y)]. *)

Module Zoom.

Local Open Scope R_scope.

Record ZoomTransform : Type := { k : R; x : R; y : R }.

Definition applyX (t : ZoomTransform) (v : R) : R := v * k t + x t.
Definition applyY (t : ZoomTransform) (v : R) : R := v * k t + y t.

Definition zoomIdentity : ZoomTransform := {| k := 1; x := 0; y := 0 |}.

End Zoom.

(** ** DOM elements and d3 selections *)

Module Dom.

(** An attribute or style value is a template literal: pieces of text
    and interpolated numbers, in order.  A lone number or string is a
    template of one piece. *)
Inductive Chunk : Type :=
| Txt (s : string)
| Num (r : R).

Definition Value : Type := list Chunk.

Record Element (D : Type) : Type := {
  datum : D;
  attrs : gmap string Value;
  styles : gmap string Value
}.
Arguments datum {D} _.
Arguments attrs {D} _.
Arguments styles {D} _.

Definition Selection (D : Type) : Type := list (Element D).

Definition setAttribute {D} (name : string) (v : Value) (e : Element D) : Element D :=
  {| datum := datum e; attrs := <[name := v]> (attrs e); styles := styles e |}.

Definition setProperty {D} (name : string) (v : Value) (e : Element D) : Element D :=
  {| datum := datum e; attrs := attrs e; styles := <[name := v]> (styles e) |}.

(** [selection.attr(name, value)] with a function value: the function
    is evaluated with each element's datum. *)
Definition attr {D} (name : string) (value : D → Value) (sel : Selection D)
  : Selection D :=
  map (λ e, setAttribute name (value (datum e)) e) sel.

(** [selection.style(name, value)], likewise; a constant value is the
    constant function. *)
Definition style {D} (name : string) (value : D → Value) (sel : Selection D)
  : Selection D :=
  map (λ e, setProperty name (value (datum e)) e) sel.


(** [transform.toString()], as [attr] stores a transform object. *)
Definition transformValue (t : Zoom.ZoomTransform) : Value :=
  [Txt "translate("; Num (Zoom.x t); Txt ","; Num (Zoom.y t);
   Txt ") scale("; Num (Zoom.k t); Txt ")"].

(** The shapes of the values the tick handler writes. *)
Definition linePath (x1 y1 x2 y2 : R) : Value :=
  [Txt "M "; Num x1; Txt " "; Num y1; Txt " L "; Num x2; Txt " "; Num y2].
Definition arcPath (x1 y1 r x2 y2 : R) : Value :=
  [Txt "M"; Num x1; Txt ","; Num y1; Txt " A"; Num r; Txt ","; Num r;
   Txt " 0 0, 1"; Num x2; Txt ","; Num y2].
Definition translate (tx ty : R) : Value :=
  [Txt "translate("; Num tx; Txt ", "; Num ty; Txt ")"].

(** The elements held by the three selections of the component: the
    node images, the link paths and the link labels. *)
Record Scene : Type := {
  node : Selection Types.ref;
  link : Selection Types.LinkI;
  linkLabel : Selection Types.LinkI
}.

End Dom.

(** ** [computeLink] and [ticked] *)

Module Render.

Import Types Geometry Dom.
Local Open Scope R_scope.

Definition computeLink (σ : Store) (d : LinkI) (transform : Zoom.ZoomTransform)
    (radius width height : R) : Value :=
  let src := σ (source d) in
  let dst := σ (target d) in
  let x1 := Zoom.applyX transform (Math.max radius (Math.min (width - radius) (x src))) in
  let y1 := Zoom.applyY transform (Math.max radius (Math.min (height - radius) (y src))) in
  let x2 := Zoom.applyX transform (Math.max radius (Math.min (width - radius) (x dst))) in
  let y2 := Zoom.applyY transform (Math.max radius (Math.min (height - radius) (y dst))) in
  let dx := x2 - x1 in
  let dy := y2 - y1 in
  let dr := sqrt (dx * dx + dy * dy) in
  if repeated d then
    [Txt "M"; Num x1; Txt ","; Num y1; Txt " A"; Num dr; Txt ","; Num dr;
     Txt " 0 0, 1"; Num x2; Txt ","; Num y2]
  else
    [Txt "M "; Num x1; Txt " "; Num y1; Txt " L "; Num x2; Txt " "; Num y2].

Definition radius : R := 40.
Definition imgXShift : R := 32 / 2.
Definition imgYShift : R := 32 / 2.

Definition computeTransform (σ : Store) (transform : Zoom.ZoomTransform)
    (width height : R) (d : ref) : Value :=
  let nodeX :=
    Math.max radius (Math.min (width - radius) (Zoom.applyX transform (x (σ d))))
    - imgXShift in
  let nodeY :=
    Math.max radius (Math.min (height - radius) (Zoom.applyY transform (y (σ d))))
    - imgYShift in
  [Txt "translate("; Num nodeX; Txt ", "; Num nodeY; Txt ")"].

(** [ticked] returns nothing: its effect is on the elements of the
    three selections, which it returns here. *)
Definition ticked (σ : Store) (transform : Zoom.ZoomTransform) (sc : Scene)
    (width height : R) : Scene :=
  let link' :=
    attr "d" (λ d, computeLink σ d transform radius width height) (link sc) in
  let linkLabel' :=
    attr "y" (λ d, [Num (Zoom.applyY transform
                          (ypos (if repeated d then 30 else 60)
                                (σ (source d)) (σ (target d))))])
      (attr "x" (λ d, [Num (Zoom.applyX transform
                             (xpos (if repeated d then 30 else 60)
                                   (σ (source d)) (σ (target d))))])
         (attr "text-anchor"
            (λ d, if repeated d then [Txt "start"] else [Txt "end"])
            (linkLabel sc))) in
  let node' := attr "transform" (computeTransform σ transform width height) (node sc) in
  {| node := node'; link := link'; linkLabel := linkLabel' |}.

End Render.

(** ** [processHighlights] *)

Module Highlights.

Import Types Dom.

(** The key [a + "," + b] of the link index. *)
Definition key (a b : string) : string := a +:+ "," +:+ b.

(** [linkedByIndex] after the two [forEach] loops: first every node
    with itself, then every link passed in. *)
Definition linkedByIndex (σ : Store) (networkGraph : GraphI) (links : list LinkI)
  : gset string :=
  let s0 : gset string := ∅ in
  let s1 :=
    fold_left (λ s n, s ∪ {[ key (ieeeAddr (σ n)) (ieeeAddr (σ n)) ]})
      (nodes networkGraph) s0 in
  fold_left (λ s l, s ∪ {[ key (sourceIeeeAddr l) (targetIeeeAddr l) ]}) links s1.

Definition neighboring (σ : Store) (linkedByIndex : gset string) (a b : ref) : bool :=
  bool_decide (key (ieeeAddr (σ a)) (ieeeAddr (σ b)) ∈ linkedByIndex).

Definition opacityFull : Value := [Num 1%R].
Definition opacityDim : Value := [Num 0.15%R].

(** [l.source === selectedNode || l.target === selectedNode ? 1 : 0.15];
    [===] on objects is identity of references. *)
Definition computeOpacity (selectedNode : option ref) (l : LinkI) : Value :=
  if bool_decide (Some (source l) = selectedNode)
     || bool_decide (Some (target l) = selectedNode)
  then opacityFull else opacityDim.

(** [selectedNode] is a node object or [null]. *)
Definition processHighlights (σ : Store) (networkGraph : GraphI)
    (links : list LinkI) (selectedNode : option ref) (sc : Scene) : Scene :=
  let idx := linkedByIndex σ networkGraph links in
  match selectedNode with
  | Some sel =>
      {| node :=
           style "opacity"
             (λ o, if neighboring σ idx sel o || neighboring σ idx o sel
                   then opacityFull else opacityDim)
             (node sc);
         link := style "stroke-opacity" (computeOpacity selectedNode) (link sc);
         linkLabel := style "opacity" (computeOpacity selectedNode) (linkLabel sc) |}
  | None =>
      {| node := style "opacity" (λ _, opacityFull) (node sc);
         link := style "stroke-opacity" (λ _, opacityFull) (link sc);
         linkLabel := style "opacity" (λ _, opacityFull) (linkLabel sc) |}
  end.

End Highlights.

(** ** The forces of d3-force, as the component configures them

    A force object is the record of its settings; a setting the
    component never touches stays [None] and the library's default
    applies. *)

Module Forces.

Import Types.

Record LinkForce : Type := {
  link_id : option (NodeI → string);
  link_distance : option (LinkI → Distance.result);
  link_strength : option R;
  link_links : list LinkI
}.

Record ManyBodyForce : Type := {
  body_strength : option R;
  body_distanceMin : option R;
  body_distanceMax : option R
}.

Record CollideForce : Type := {
  collide_radius : option R;
  collide_strength : option R
}.

Record CenterForce : Type := { center_x : option R; center_y : option R }.

Record PositionForce : Type := {
  position_target : option R;
  position_strength : option R
}.

Inductive Force : Type :=
| OfLink (f : LinkForce)
| OfManyBody (f : ManyBodyForce)
| OfCollide (f : CollideForce)
| OfCenter (f : CenterForce)
| OfX (f : PositionForce)
| OfY (f : PositionForce).

(** The constructors of the library. *)
Definition forceLink : LinkForce :=
  {| link_id := None; link_distance := None; link_strength := None; link_links := [] |}.
Definition forceManyBodyReuse : ManyBodyForce :=
  {| body_strength := None; body_distanceMin := None; body_distanceMax := None |}.
Definition forceCollide (radius : R) : CollideForce :=
  {| collide_radius := Some radius; collide_strength := None |}.
Definition forceCenter (cx cy : R) : CenterForce :=
  {| center_x := Some cx; center_y := Some cy |}.
Definition forceX : PositionForce :=
  {| position_target := None; position_strength := None |}.
Definition forceY : PositionForce :=
  {| position_target := None; position_strength := None |}.

(** The chained setters. *)
Definition id (f : NodeI → string) (l : LinkForce) : LinkForce :=
  {| link_id := Some f; link_distance := link_distance l;
     link_strength := link_strength l; link_links := link_links l |}.
Definition distance (f : LinkI → Distance.result) (l : LinkForce) : LinkForce :=
  {| link_id := link_id l; link_distance := Some f;
     link_strength := link_strength l; link_links := link_links l |}.
Definition strength (v : R) (l : LinkForce) : LinkForce :=
  {| link_id := link_id l; link_distance := link_distance l;
     link_strength := Some v; link_links := link_links l |}.
Definition setLinks (ls : list LinkI) (l : LinkForce) : LinkForce :=
  {| link_id := link_id l; link_distance := link_distance l;
     link_strength := link_strength l; link_links := ls |}.

Definition bodyStrength (v : R) (b : ManyBodyForce) : ManyBodyForce :=
  {| body_strength := Some v; body_distanceMin := body_distanceMin b;
     body_distanceMax := body_distanceMax b |}.
Definition distanceMin (v : R) (b : ManyBodyForce) : ManyBodyForce :=
  {| body_strength := body_strength b; body_distanceMin := Some v;
     body_distanceMax := body_distanceMax b |}.
Definition distanceMax (v : R) (b : ManyBodyForce) : ManyBodyForce :=
  {| body_strength := body_strength b; body_distanceMin := body_distanceMin b;
     body_distanceMax := Some v |}.

Definition collideStrength (v : R) (c : CollideForce) : CollideForce :=
  {| collide_radius := collide_radius c; collide_strength := Some v |}.

(** A simulation keeps its forces by name, in the order they were
    first set; setting a name again replaces the force in place. *)
Fixpoint setForce (name : string) (f : Force) (fs : list (string * Force))
  : list (string * Force) :=
  match fs with
  | [] => [(name, f)]
  | (n, g) :: rest =>
      if String.eqb n name then (n, f) :: rest else (n, g) :: setForce name f rest
  end.

Fixpoint getForce (name : string) (fs : list (string * Force)) : option Force :=
  match fs with
  | [] => None
  | (n, g) :: rest => if String.eqb n name then Some g else getForce name rest
  end.

(** [simulation.nodes(nodes)] of d3-force (version 2 and later) goes
    through the array and, in each node object, writes its index, takes
    the fixed position where one is set, gives a node still lacking a
    coordinate a place on the initial spiral, and a node lacking a
    velocity the velocity 0. *)
Definition initialRadius : R := 10.
Definition initialAngle : R := (PI * (3 - sqrt 5))%R.

Definition initializeNode (i : nat) (n : NodeI) : NodeI :=
  let x1 := match fx n with Some v => v | None => x n end in
  let y1 := match fy n with Some v => v | None => y n end in
  let hasX1 := match fx n with Some _ => true | None => hasX n end in
  let hasY1 := match fy n with Some _ => true | None => hasY n end in
  let unplaced := negb (hasX1 && hasY1) in
  let radius := (initialRadius * sqrt (0.5 + INR i))%R in
  let angle := (INR i * initialAngle)%R in
  let still :=
    match vx n, vy n with Some _, Some _ => false | _, _ => true end in
  {| ieeeAddr := ieeeAddr n;
     x := if unplaced then (radius * cos angle)%R else x1;
     y := if unplaced then (radius * sin angle)%R else y1;
     hasX := true;
     hasY := true;
     index := Some i;
     vx := if still then Some 0%R else vx n;
     vy := if still then Some 0%R else vy n;
     fx := fx n;
     fy := fy n |}.

(** The loop over the array, from index [i] on; the objects live in
    the store. *)
Fixpoint initializeNodes (i : nat) (ns : list ref) (σ : Store) : Store :=
  match ns with
  | [] => σ
  | r :: rest =>
      initializeNodes (S i) rest
        (λ r', if Pos.eqb r' r then initializeNode i (σ r) else σ r')
  end.


(** What a registered listener has captured when [updateNodes] built
    it: the size of the container at that time.  The selections it
    captured are the elements of the scene. *)
Record Captured : Type := { captured_width : R; captured_height : R }.

Record Simulation : Type := {
  forces : list (string * Force);
  simulationNodes : list ref;
  onTick : option Captured;
  alphaTarget : R;
  restarted : bool
}.

Definition forceSimulation : Simulation :=
  {| forces := []; simulationNodes := []; onTick := None;
     alphaTarget := 0%R; restarted := false |}.

Definition force (name : string) (f : Force) (s : Simulation) : Simulation :=
  {| forces := setForce name f (forces s); simulationNodes := simulationNodes s;
     onTick := onTick s; alphaTarget := alphaTarget s; restarted := restarted s |}.

End Forces.

(** ** The component: [updateForces], [updateNodes] and its handlers *)

Module MapComponent.

Import Types Dom Forces.
Local Open Scope R_scope.

Record MapState : Type := {
  selectedNode : option ref;
  width : R;
  height : R;
  visibleLinks : list Z
}.

(** The instance: its props, its state and its two own fields. *)
Record Component : Type := {
  networkGraph : GraphI;
  state : MapState;
  simulation : Simulation;
  transform : Zoom.ZoomTransform
}.

(** The rendered document: the group [.everything], the elements of
    the three selections, and the zoom listener installed on the svg. *)
Record Page : Type := {
  everything : Element unit;
  scene : Scene;
  onZoom : option Captured
}.

Record World : Type := {
  this : Component;
  page : Page;
  store : Store
}.

Definition updateForces (width height : R) (c : Component) : Component :=
  let linkForce :=
    strength 0.2 (distance Distance.getDistance (id ieeeAddr forceLink)) in
  let chargeForce :=
    bodyStrength (-200) (distanceMax 1000 (distanceMin 200 forceManyBodyReuse)) in
  let repelForce :=
    distanceMin 20 (distanceMax 50 (bodyStrength (-140) forceManyBodyReuse)) in
  let collisionForce := collideStrength 1 (forceCollide 40) in
  let centerForce := forceCenter (width / 2) (height / 2) in
  {| networkGraph := networkGraph c;
     state := state c;
     simulation :=
       force "y" (OfY forceY)
         (force "x" (OfX forceX)
            (force "center" (OfCenter centerForce)
               (force "repelForce" (OfManyBody repelForce)
                  (force "collisionForce" (OfCollide collisionForce)
                     (force "charge" (OfManyBody chargeForce)
                        (force "link" (OfLink linkForce) forceSimulation))))));
     transform := transform c |}.

(** The body of the tick listener: it reads [this.transform] when it
    runs, and the size captured when it was registered. *)
Definition tickHandler (c : Captured) (w : World) : World :=
  {| this := this w;
     page :=
       {| everything := everything (page w);
          scene := Render.ticked (store w) (transform (this w)) (scene (page w))
                     (captured_width c) (captured_height c);
          onZoom := onZoom (page w) |};
     store := store w |}.

(** The body of the zoom listener, for an event carrying [transform]. *)
Definition zoomHandler (c : Captured) (transform' : Zoom.ZoomTransform) (w : World)
  : World :=
  let everything' :=
    setAttribute "transform" (transformValue transform') (everything (page w)) in
  let this' :=
    {| networkGraph := networkGraph (this w); state := state (this w);
       simulation := simulation (this w); transform := transform' |} in
  {| this := this';
     page :=
       {| everything := everything';
          scene := Render.ticked (store w) transform' (scene (page w))
                     (captured_width c) (captured_height c);
          onZoom := onZoom (page w) |};
     store := store w |}.

(** A zoom or pan event on the svg, and a tick of the simulation: the
    registered listener runs, if there is one. *)
Definition zoomEvent (transform' : Zoom.ZoomTransform) (w : World) : World :=
  match onZoom (page w) with
  | Some c => zoomHandler c transform' w
  | None => w
  end.

Definition tickEvent (w : World) : World :=
  match onTick (simulation (this w)) with
  | Some c => tickHandler c w
  | None => w
  end.

(** The links whose relationship is among the visible ones. *)
Definition visible (networkGraph : GraphI) (visibleLinks : list Z) : list LinkI :=
  filter (λ l, relationship l ∈ visibleLinks) (links networkGraph).

(** [updateNodes]; [None] is the [TypeError] of [force("link").links]
    when the simulation has no link force.  It runs after every render,
    so the three selections it takes hold the elements of the scene as
    rendered; the handlers it registers capture them together with the
    size read from the state.  [simulation.nodes] writes into the node
    objects of the graph before anything else reads them.  The click
    listener, which only sets the state, is [Lifecycle.onClick]. *)
Definition updateNodes (w : World) : option World :=
  let networkGraph := networkGraph (this w) in
  let st := state (this w) in
  let c := {| captured_width := width st; captured_height := height st |} in
  let links := visible networkGraph (visibleLinks st) in
  let sim := simulation (this w) in
  let σ := initializeNodes 0 (nodes networkGraph) (store w) in
  match getForce "link" (forces sim) with
  | Some (OfLink f) =>
      let sim' :=
        {| forces := setForce "link" (OfLink (setLinks links f)) (forces sim);
           simulationNodes := nodes networkGraph;
           onTick := Some c;
           alphaTarget := 0.3;
           restarted := true |} in
      Some
        {| this :=
             {| MapComponent.networkGraph := networkGraph; state := st;
                simulation := sim'; transform := transform (this w) |};
           page :=
             {| everything := everything (page w);
                scene := Highlights.processHighlights σ networkGraph links
                           (selectedNode st) (scene (page w));
                onZoom := Some c |};
           store := σ |}
  | _ => None
  end.

End MapComponent.

(** ** A small network, for examples *)

Module Sample.

Import Types Dom Forces MapComponent.
Local Open Scope R_scope.

(** A node the simulation has placed at [(px, py)], at rest. *)
Definition placed (addr : string) (i : nat) (px py : R) : NodeI :=
  {| ieeeAddr := addr; x := px; y := py; hasX := true; hasY := true;
     index := Some i; vx := Some 0; vy := Some 0; fx := None; fy := None |}.

(** A node as it arrives, without coordinates. *)
Definition arriving (addr : string) : NodeI :=
  {| ieeeAddr := addr; x := 0; y := 0; hasX := false; hasY := false;
     index := None; vx := None; vy := None; fx := None; fy := None |}.

Definition node1 : NodeI := placed "0x01" 0 100 100.
Definition node2 : NodeI := placed "0x02" 1 400 100.
Definition node3 : NodeI := placed "0x03" 2 100 300.

(** References 1 and 2 are the two routers, every other one the end
    device. *)
Definition store0 : Store :=
  λ r, if Pos.eqb r 1 then node1 else if Pos.eqb r 2 then node2 else node3.

Definition link12 : LinkI := Distance.routerLink (ofZ 1).

Definition element {D} (d : D) : Element D :=
  {| datum := d; attrs := ∅; styles := ∅ |}.

Definition scene0 : Scene :=
  {| node := [element 1%positive; element 2%positive; element 3%positive];
     link := [element link12];
     linkLabel := [element link12] |}.

Definition graph0 : GraphI :=
  {| nodes := [1%positive; 2%positive; 3%positive]; links := [link12] |}.

Definition component0 : Component :=
  {| networkGraph := graph0;
     state := {| selectedNode := None; width := 200; height := 200;
                 visibleLinks := [1%Z] |};
     simulation := forceSimulation;
     transform := Zoom.zoomIdentity |}.

(** The same component once the first router has been clicked. *)
Definition component1 : Component :=
  {| networkGraph := graph0;
     state := {| selectedNode := Some 1%positive; width := 200; height := 200;
                 visibleLinks := [1%Z] |};
     simulation := simulation (updateForces 200 200 component0);
     transform := Zoom.zoomIdentity |}.

Definition world1 : World :=
  {| this := component1;
     page := {| everything := element tt; scene := scene0; onZoom := None |};
     store := store0 |}.

(** The world after [componentDidMount] has set up the forces. *)
Definition world0 : World :=
  {| this := updateForces 200 200 component0;
     page := {| everything := element tt; scene := scene0; onZoom := None |};
     store := store0 |}.

End Sample.

(** ** State changes and the lifecycle of the component *)

Module Lifecycle.

Import Types Dom Forces MapComponent.
Local Open Scope R_scope.

(** [this.setState] with a partial state: the three stanzas the
    component uses. *)
Definition setSelectedNode (v : option ref) (c : Component) : Component :=
  {| networkGraph := networkGraph c;
     state := {| selectedNode := v; width := width (state c);
                 height := height (state c);
                 visibleLinks := visibleLinks (state c) |};
     simulation := simulation c; transform := transform c |}.

Definition setSize (wd ht : R) (c : Component) : Component :=
  {| networkGraph := networkGraph c;
     state := {| selectedNode := selectedNode (state c); width := wd;
                 height := ht; visibleLinks := visibleLinks (state c) |};
     simulation := simulation c; transform := transform c |}.

Definition setVisibleLinks (vs : list Z) (c : Component) : Component :=
  {| networkGraph := networkGraph c;
     state := {| selectedNode := selectedNode (state c);
                 width := width (state c); height := height (state c);
                 visibleLinks := vs |};
     simulation := simulation c; transform := transform c |}.

(** The click listener [updateNodes] puts on the node elements: it
    reads the state when it runs. *)
Definition onClick (d : ref) (c : Component) : Component :=
  setSelectedNode
    (match selectedNode (state c) with Some _ => None | None => Some d end) c.

(** [onLinkTypeFilterChange], for a checkbox whose value reads as the
    integer [inValue] (the values are the relationship numbers that
    [renderMapControls] gives the checkboxes). *)
Definition onLinkTypeFilterChange (checked : bool) (inValue : Z) (c : Component)
  : Component :=
  let stateVisibleLinks := visibleLinks (state c) in
  let visibleLinks :=
    if checked then stateVisibleLinks ++ [inValue]
    else filter (λ v, v ≠ inValue) stateVisibleLinks in
  setVisibleLinks visibleLinks c.

(** [initPage], for the bounding rectangle of the container. *)
Definition initPage (rectWidth rectHeight : R) (c : Component) : Component :=
  updateForces rectWidth rectHeight (setSize rectWidth rectHeight c).

(** The instance as its field initialisers leave it; the relationship
    shown at first is a parameter. *)
Definition construct (g : GraphI) (firstVisible : Z) : Component :=
  {| networkGraph := g;
     state := {| selectedNode := None; width := 0; height := 0;
                 visibleLinks := [firstVisible] |};
     simulation := forceSimulation;
     transform := Zoom.zoomIdentity |}.

Definition withThis (c : Component) (w : World) : World :=
  {| this := c; page := page w; store := store w |}.

(** What can happen to a mounted component.  A state change, new
    props, a render of the children and a move of the simulated nodes
    are separate steps; [componentDidUpdate] is [updateNodes]. *)
Inductive step : World → World → Prop :=
| step_update w w' :
    updateNodes w = Some w' → step w w'
| step_tick w :
    step w (tickEvent w)
| step_zoom tr w :
    step w (zoomEvent tr w)
| step_click d w :
    step w (withThis (onClick d (this w)) w)
| step_filter checked inValue w :
    step w (withThis (onLinkTypeFilterChange checked inValue (this w)) w)
| step_props g w :
    step w
      (withThis {| networkGraph := g; state := state (this w);
                   simulation := simulation (this w);
                   transform := transform (this w) |} w)
| step_render sc w :
    step w
      {| this := this w;
         page := {| everything := everything (page w); scene := sc;
                    onZoom := onZoom (page w) |};
         store := store w |}
| step_simulate σ w :
    step w {| this := this w; page := page w; store := σ |}.

(** The forces [updateForces] sets for a container of the given size,
    with the given links in the link force. *)
Definition forcesFor (wd ht : R) (ls : list LinkI) : list (string * Force) :=
  [ ("link",
     OfLink {| link_id := Some ieeeAddr;
               link_distance := Some Distance.getDistance;
               link_strength := Some 0.2;
               link_links := ls |});
    ("charge",
     OfManyBody {| body_strength := Some (-200);
                   body_distanceMin := Some 200;
                   body_distanceMax := Some 1000 |});
    ("collisionForce",
     OfCollide {| collide_radius := Some 40; collide_strength := Some 1 |});
    ("repelForce",
     OfManyBody {| body_strength := Some (-140);
                   body_distanceMin := Some 20;
                   body_distanceMax := Some 50 |});
    ("center",
     OfCenter {| center_x := Some (wd / 2); center_y := Some (ht / 2) |});
    ("x", OfX forceX);
    ("y", OfY forceY) ].

(** The invariant: the size in the state, the forces and the size the
    listeners captured are those of the mount. *)
Definition mountedAt (wd ht : R) (w : World) : Prop :=
  width (state (this w)) = wd
  ∧ height (state (this w)) = ht
  ∧ (∃ ls, forces (simulation (this w)) = forcesFor wd ht ls)
  ∧ (∀ cap, onZoom (page w) = Some cap →
            cap = {| captured_width := wd; captured_height := ht |})
  ∧ (∀ cap, onTick (simulation (this w)) = Some cap →
            cap = {| captured_width := wd; captured_height := ht |}).

(** The same link, drawn as a repeated one. *)
Definition withRepeated (d : LinkI) : LinkI :=
  {| source := source d; target := target d;
     sourceIeeeAddr := sourceIeeeAddr d; targetIeeeAddr := targetIeeeAddr d;
     linkType := linkType d; depth := depth d;
     relationship := relationship d; repeated := true |}.

(** A link whose two address fields are those of the node objects it
    points to. *)
Definition addressed (σ : Store) (l : LinkI) : Prop :=
  sourceIeeeAddr l = ieeeAddr (σ (source l))
  ∧ targetIeeeAddr l = ieeeAddr (σ (target l)).

(** The character [","], code 44, and a string without one. *)
Definition comma : Ascii.ascii := Ascii.ascii_of_nat 44.

Fixpoint commaFree (s : string) : bool :=
  match s with
  | EmptyString => true
  | String a rest => negb (Ascii.eqb a comma) && commaFree rest
  end.

End Lifecycle.

(** * Properties *)

(** ** Integer conversion *)

Section NumberFacts.

Import JsNumber.

Lemma wrap32_range z : (- 2 ^ 31 <= wrap32 z < 2 ^ 31)%Z.
Proof. unfold wrap32. pose proof (Z.mod_pos_bound (z + 2 ^ 31) (2 ^ 32)). lia. Qed.

Lemma wrap32_small z : (- 2 ^ 31 <= z < 2 ^ 31)%Z → wrap32 z = z.
Proof. intros Hz. unfold wrap32. rewrite Z.mod_small; lia. Qed.

Lemma truncQ_inject_Z z : truncQ (inject_Z z) = z.
Proof. unfold truncQ, inject_Z. simpl. apply Z.quot_1_r. Qed.

Lemma ToInt32_ofZ z : ToInt32 (ofZ z) = wrap32 z.
Proof. unfold ofZ, ToInt32. by rewrite truncQ_inject_Z. Qed.

(** The double NOT is exactly [ToInt32]. *)
Lemma bitnot2_ToInt32 n : bitnot2 n = ToInt32 n.
Proof.
  unfold bitnot2, bitnot. rewrite ToInt32_ofZ.
  assert (Hn : (- 2 ^ 31 <= ToInt32 n < 2 ^ 31)%Z).
  { destruct n; simpl; first [apply wrap32_range | lia]. }
  rewrite wrap32_small.
  - apply Z.lnot_involutive.
  - unfold Z.lnot. lia.
Qed.

(** On non-negative numbers truncation is the floor, hence monotone. *)
Lemma truncQ_floor q : (0 <= q)%Q → truncQ q = Qfloor q.
Proof.
  destruct q as [a b]. unfold Qle, truncQ, Qfloor. simpl. intros H.
  apply Z.quot_div_nonneg; lia.
Qed.

Lemma truncQ_nonneg_le p q :
  (0 <= p)%Q → (p <= q)%Q → (0 <= truncQ p <= truncQ q)%Z.
Proof.
  intros Hp Hpq.
  rewrite !truncQ_floor by (done || by eapply Qle_trans).
  split; [| by apply Qfloor_resp_le].
  change 0%Z with (Qfloor 0). by apply Qfloor_resp_le.
Qed.

Lemma truncQ_nonpos q : (q <= 0)%Q → (truncQ q <= 0)%Z.
Proof.
  destruct q as [a b]. unfold Qle, truncQ. simpl. intros H.
  assert (Ha : (a <= 0)%Z) by lia.
  replace a with (- - a)%Z by lia.
  rewrite Z.quot_opp_l by lia.
  pose proof (Z.quot_pos (- a) (Z.pos b)). lia.
Qed.

(** [Math.min(4, v)] is at most 4 whenever it is finite. *)
Lemma Math_min_4_le v q : Math_min (ofZ 4) v = Fin q → (q <= 4)%Q.
Proof.
  destruct v as [| | | p]; simpl; try discriminate.
  - intros [= <-]. apply Qle_refl.
  - destruct (Qle_bool (inject_Z 4) p) eqn:E; intros [= <-].
    + apply Qle_refl.
    + destruct (Qlt_le_dec p (inject_Z 4)) as [Hlt | Hle].
      * by apply Qlt_le_weak.
      * apply Qle_bool_iff in Hle. congruence.
Qed.

Lemma truncQ_le_4 q : (q <= 4)%Q → (truncQ q <= 4)%Z.
Proof.
  intros Hq. destruct (Qlt_le_dec q 0) as [Hneg | Hpos].
  - pose proof (truncQ_nonpos q (Qlt_le_weak _ _ Hneg)). lia.
  - pose proof (truncQ_nonneg_le q 4 Hpos Hq) as [_ H].
    change (truncQ 4) with 4%Z in H. done.
Qed.

End NumberFacts.

(** ** The distance function *)

Section DistanceFacts.

Import Types Distance.

Example getDistance_router_2 : getDistance (routerLink (ofZ 2)) = Length 400.
Proof. vm_compute. reflexivity. Qed.

Example getDistance_router_9 : getDistance (routerLink (ofZ 9)) = Length 500.
Proof. vm_compute. reflexivity. Qed.

Example getDistance_fraction :
  getDistance (routerLink (Fin (27 # 10))) = Length 400.
Proof. vm_compute. reflexivity. Qed.

Example getDistance_NaN : getDistance (routerLink NaN) = Length 300.
Proof. vm_compute. reflexivity. Qed.

Example getDistance_wraps :
  getDistance (routerLink (ofZ (-4294967196))) = Length 5300.
Proof. vm_compute. reflexivity. Qed.

Example getDistance_unknown_type :
  getDistance (withLinkType (routerLink (ofZ 2)) "Router2Coordinator") = Length 300.
Proof. vm_compute. reflexivity. Qed.

(** An inherited name finds a function, [??] keeps it, and [+] gives
    a string: the text of 100 followed by that of the function. *)
Example getDistance_constructor :
  getDistance (withLinkType (routerLink (ofZ 2)) "constructor")
  = Text 100 "constructor".
Proof. vm_compute. reflexivity. Qed.

Lemma distancesMap_lookup lt :
  default 200%Z (distancesMap !! lt) = baseDistance lt.
Proof.
  unfold baseDistance, distancesMap.
  repeat match goal with
  | |- context [String.eqb lt ?s] =>
      destruct (String.eqb_spec lt s) as [-> | ?]; [by vm_compute |]
  end.
  rewrite !lookup_insert_ne by congruence.
  by rewrite lookup_singleton_ne by congruence.
Qed.

(** Off the inherited names the lookup with its default is the table. *)
Lemma get_table lt :
  lt ∉ objectPrototype → default (Own 200%Z) (get lt) = Own (baseDistance lt).
Proof.
  intros Hlt. unfold get. rewrite <- distancesMap_lookup.
  destruct (distancesMap !! lt); [done |].
  by rewrite bool_decide_eq_false_2.
Qed.

(** On an inherited name the lookup finds the inherited member. *)
Lemma get_inherited lt : lt ∈ objectPrototype → get lt = Some (Inherited lt).
Proof.
  intros Hlt. unfold objectPrototype in Hlt.
  repeat (apply elem_of_cons in Hlt as [-> | Hlt]; [by vm_compute |]).
  by apply elem_of_nil in Hlt.
Qed.

Lemma getDistance_unfold d :
  getDistance d
  = plus (50 * ToInt32 (Math_min (ofZ 4) (depth d)))
         (default (Own 200%Z) (get (linkType d))).
Proof. unfold getDistance. cbv zeta. by rewrite bitnot2_ToInt32. Qed.

Lemma getDistance_length d :
  linkType d ∉ objectPrototype →
  getDistance d
  = Length (baseDistance (linkType d) + 50 * ToInt32 (Math_min (ofZ 4) (depth d))).
Proof.
  intros Hlt. rewrite getDistance_unfold, (get_table _ Hlt). simpl. f_equal. lia.
Qed.

Lemma getDistance_text d :
  linkType d ∈ objectPrototype →
  getDistance d = Text (50 * ToInt32 (Math_min (ofZ 4) (depth d))) (linkType d).
Proof.
  intros Hlt. by rewrite getDistance_unfold, (get_inherited _ Hlt).
Qed.

(** The result depends on the link through its type and the depth
    term only. *)
Lemma getDistance_depends d d' :
  linkType d = linkType d' →
  ToInt32 (Math_min (ofZ 4) (depth d)) = ToInt32 (Math_min (ofZ 4) (depth d')) →
  getDistance d = getDistance d'.
Proof. intros Hl Hd. by rewrite !getDistance_unfold, Hl, Hd. Qed.

Lemma router_not_inherited v : linkType (routerLink v) ∉ objectPrototype.
Proof.
  apply (bool_decide_eq_false_1 (linkType (routerLink v) ∈ objectPrototype)).
  vm_compute. reflexivity.
Qed.

Lemma linkType_withLinkType d lt : linkType (withLinkType d lt) = lt.
Proof. reflexivity. Qed.

Lemma depth_withDepth d v : depth (withDepth d v) = v.
Proof. reflexivity. Qed.




(** On non-negative depths the depth term lies between 0 and 4. *)
Lemma depth_term_bounds v :
  num_le (ofZ 0) v → (0 <= ToInt32 (Math_min (ofZ 4) v) <= 4)%Z.
Proof.
  intros Hv.
  assert (∃ q, Math_min (ofZ 4) v = Fin q ∧ (0 <= q)%Q ∧ (q <= 4)%Q) as (q & Hq & H0 & H4).
  { destruct v as [| | | p]; simpl in *; try done.
    - eexists; split; [done |]. split; [done | apply Qle_refl].
    - destruct (Qle_bool (inject_Z 4) p) eqn:E; eexists; (split; [done |]).
      + split; [done | apply Qle_refl].
      + split; [done |]. eapply (Math_min_4_le (Fin p)). simpl. by rewrite E. }
  rewrite Hq. simpl.
  pose proof (truncQ_nonneg_le q 4 H0 H4) as [Hlo Hhi].
  change (truncQ 4) with 4%Z in Hhi.
  rewrite wrap32_small; lia.
Qed.

(** C1, as stated, fails in two places.  Below the range of 32-bit
    integers: at depth -2^32 the truncation of [min(4, depth)] is
    -2^32, but [~~] reduces it modulo 2^32 to 0 and a router link gets
    its base distance, 300.  And on a name inherited from
    [Object.prototype]: for the type [constructor] the lookup finds a
    function, the default 200 is not taken, and the result is a string,
    not the number 200 + 50. *)
Lemma getDistance_formula_counterexample :
  (¬ ∃ t : Z,
       truncation (Math_min (ofZ 4) (depth (routerLink (ofZ (-4294967296)))))
       = Some t
       ∧ getDistance (routerLink (ofZ (-4294967296)))
         = Length (baseDistance (linkType (routerLink (ofZ (-4294967296))))
                   + 50 * t))
  ∧ (¬ ∃ t : Z,
         truncation
           (Math_min (ofZ 4)
              (depth (withLinkType (routerLink (ofZ 1)) "constructor")))
         = Some t
         ∧ getDistance (withLinkType (routerLink (ofZ 1)) "constructor")
           = Length (baseDistance "constructor" + 50 * t)).
Proof.
  split.
  - intros (t & Ht & H). vm_compute in Ht. injection Ht as <-.
    vm_compute in H. discriminate.
  - intros (t & _ & H). vm_compute in H. discriminate.
Qed.

(** C1 (amended): for every link [d] whose type is not a name
    inherited from [Object.prototype]: whenever [min(4, d.depth)] has a
    truncation [t] that is at least -2^31, [getDistance d] is the
    number made of the base distance of [d.linkType] in the table (450,
    300, 400, 100, 100, and 200 for any other type) plus [50 * t], and
    when [min(4, d.depth)] is NaN or -Infinity it is the base distance
    alone.  For every link, the result depends on no field other than
    its type and its depth. *)
Theorem getDistance_table_and_depth (d : LinkI) :
  (linkType d ∉ objectPrototype →
   (∀ t : Z,
      truncation (Math_min (ofZ 4) (depth d)) = Some t → (- 2 ^ 31 <= t)%Z →
      getDistance d = Length (baseDistance (linkType d) + 50 * t))
   ∧ (Math_min (ofZ 4) (depth d) = NaN ∨ Math_min (ofZ 4) (depth d) = NegInf →
      getDistance d = Length (baseDistance (linkType d))))
  ∧ (∀ d' : LinkI,
       linkType d' = linkType d → depth d' = depth d →
       getDistance d' = getDistance d).
Proof.
  split; [intros Hlt; split |].
  - intros t Ht Hlo. rewrite (getDistance_length d Hlt).
    destruct (Math_min (ofZ 4) (depth d)) as [| | | q] eqn:E; try discriminate.
    injection Ht as <-. simpl.
    pose proof (truncQ_le_4 q (Math_min_4_le _ _ E)).
    rewrite wrap32_small; [done | lia].
  - intros [E | E]; rewrite (getDistance_length d Hlt), E; simpl; f_equal; lia.
  - intros d' Hl Hd. apply getDistance_depends; [done | by rewrite Hd].
Qed.

Lemma getDistance_table_and_depth_witness :
  getDistance (routerLink (ofZ 2)) = Length (baseDistance "Router2Router" + 50 * 2).
Proof.
  apply (proj1 (proj1 (getDistance_table_and_depth (routerLink (ofZ 2)))
                  (router_not_inherited (ofZ 2))) 2%Z).
  - reflexivity.
  - lia.
Defined.




End DistanceFacts.

(** ** Angles and clamping *)

Section GeometryFacts.

Import Types Geometry.
Local Open Scope R_scope.

Lemma clamp_clamped lo hi v : lo <= hi → clamped lo hi v (clamp lo hi v).
Proof.
  intros Hle. unfold clamped, clamp, Math.max, Math.min, Rmax, Rmin.
  repeat destruct (Rle_dec _ _); repeat split; intros; lra.
Qed.

(** Without an interval to clamp into, the result is the lower bound. *)
Lemma clamp_empty lo hi v : hi < lo → clamp lo hi v = lo.
Proof.
  intros Hlt. unfold clamp, Math.max, Math.min, Rmax, Rmin.
  repeat destruct (Rle_dec _ _); lra.
Qed.

Lemma norm_pos (a b : R) : ¬ (a = 0 ∧ b = 0) → 0 < sqrt (a * a + b * b).
Proof.
  intros H. apply sqrt_lt_R0.
  destruct (Req_dec a 0) as [-> | Ha].
  - assert (b ≠ 0) by (intros ->; by apply H). nra.
  - nra.
Qed.

Lemma norm_sqr (a b : R) : sqrt (a * a + b * b) * sqrt (a * a + b * b) = a * a + b * b.
Proof. apply sqrt_sqrt. nra. Qed.

(** [sqrt (1 + (b/a)^2)], for the two signs of [a]. *)
Lemma sqrt_slope_pos (a b : R) :
  0 < a → sqrt (1 + (b / a)²) = sqrt (a * a + b * b) / a.
Proof.
  intros Ha. apply sqrt_lem_1.
  - unfold Rsqr. nra.
  - apply Rlt_le, Rdiv_lt_0_compat; [| done]. apply norm_pos. lra.
  - unfold Rsqr. pose proof (norm_sqr a b) as Hn.
    set (r := sqrt (a * a + b * b)) in *.
    replace (r / a * (r / a)) with (r * r / (a * a)) by (field; lra).
    rewrite Hn. field. lra.
Qed.

Lemma sqrt_slope_neg (a b : R) :
  a < 0 → sqrt (1 + (b / a)²) = sqrt (a * a + b * b) / - a.
Proof.
  intros Ha.
  replace (b / a) with (- b / - a) by (field; lra).
  rewrite sqrt_slope_pos by lra.
  by replace (- a * - a + - b * - b) with (a * a + b * b) by ring.
Qed.

Lemma cos_atan2 (b a : R) :
  ¬ (a = 0 ∧ b = 0) → cos (Math.atan2 b a) = a / sqrt (a * a + b * b).
Proof.
  intros Hne. pose proof (norm_pos a b Hne) as Hn. unfold Math.atan2.
  destruct (total_order_T 0 a) as [[Ha | Ha] | Ha].
  - rewrite cos_atan, sqrt_slope_pos by done. field. lra.
  - subst a. replace (0 / sqrt (0 * 0 + b * b)) with 0 by (field; lra).
    destruct (total_order_T 0 b) as [[Hb | Hb] | Hb].
    + apply cos_PI2.
    + exfalso. by apply Hne.
    + rewrite cos_neg. apply cos_PI2.
  - destruct (Rle_dec 0 b).
    + rewrite neg_cos, cos_atan, sqrt_slope_neg by done. field. lra.
    + unfold Rminus. rewrite cos_plus, cos_neg, sin_neg, cos_PI, sin_PI.
      rewrite cos_atan, sqrt_slope_neg by done. field. lra.
Qed.

Lemma sin_atan2 (b a : R) :
  ¬ (a = 0 ∧ b = 0) → sin (Math.atan2 b a) = b / sqrt (a * a + b * b).
Proof.
  intros Hne. pose proof (norm_pos a b Hne) as Hn. unfold Math.atan2.
  destruct (total_order_T 0 a) as [[Ha | Ha] | Ha].
  - rewrite sin_atan, sqrt_slope_pos by done. field. lra.
  - subst a. replace (0 * 0 + b * b) with (b²) by (unfold Rsqr; ring).
    rewrite sqrt_Rsqr_abs.
    destruct (total_order_T 0 b) as [[Hb | Hb] | Hb].
    + rewrite sin_PI2, Rabs_pos_eq by lra. field. lra.
    + exfalso. by apply Hne.
    + rewrite sin_neg, sin_PI2, Rabs_left by lra. field. lra.
  - destruct (Rle_dec 0 b).
    + rewrite neg_sin, sin_atan, sqrt_slope_neg by done. field. lra.
    + unfold Rminus. rewrite sin_plus, cos_neg, sin_neg, cos_PI, sin_PI.
      rewrite sin_atan, sqrt_slope_neg by done. field. lra.
Qed.

(** The label point is at distance [offset] from the source, and, when
    source and target differ, on the line from source to target. *)
Lemma label_point_distance offset (s t : NodeI) :
  (xpos offset s t - x s) * (xpos offset s t - x s)
  + (ypos offset s t - y s) * (ypos offset s t - y s) = offset * offset.
Proof.
  unfold xpos, ypos. pose proof (sin2_cos2 (angle s t)) as H. unfold Rsqr in H.
  nra.
Qed.

Lemma label_point_direction offset (s t : NodeI) :
  ¬ (x t - x s = 0 ∧ y t - y s = 0) →
  let len := sqrt ((x t - x s) * (x t - x s) + (y t - y s) * (y t - y s)) in
  xpos offset s t = x s + offset / len * (x t - x s)
  ∧ ypos offset s t = y s + offset / len * (y t - y s).
Proof.
  intros Hne len. pose proof (norm_pos _ _ Hne) as Hn. fold len in Hn.
  unfold xpos, ypos, angle.
  rewrite cos_atan2, sin_atan2 by done. fold len.
  split; field; lra.
Qed.

Example clamp_inside : clamp 40 160 100 = 100.
Proof. apply (clamp_clamped 40 160 100); lra. Qed.

Example clamp_above : clamp 40 160 400 = 160.
Proof. apply (clamp_clamped 40 160 400); lra. Qed.

Example atan2_west : Math.atan2 0 (-1) = PI.
Proof.
  unfold Math.atan2.
  destruct (total_order_T 0 (-1)) as [[H | H] | H]; try lra.
  destruct (Rle_dec 0 0) as [_ | H0]; [| lra].
  replace (0 / -1) with 0 by (field; lra). rewrite atan_0. lra.
Qed.

(** The label of the sample link, 60 along the x axis from its source. *)
Example label_of_sample_link :
  xpos 60 Sample.node1 Sample.node2 = 160 ∧ ypos 60 Sample.node1 Sample.node2 = 100.
Proof.
  destruct (label_point_direction 60 Sample.node1 Sample.node2) as [Hx Hy].
  { simpl. lra. }
  rewrite Hx, Hy. simpl.
  replace ((400 - 100) * (400 - 100) + (100 - 100) * (100 - 100))
    with (300 * 300) by ring.
  rewrite sqrt_square by lra. split; field.
Qed.

End GeometryFacts.

(** ** Selections *)

Section SelectionFacts.

Import Dom.
Context {D : Type}.
Implicit Types (sel : Selection D) (e : Element D) (name : string).

Lemma Forall2_map_intro {A B} (P : A → B → Prop) (h : A → B) (l : list A) :
  (∀ a, P a (h a)) → Forall2 P l (map h l).
Proof. intros H. induction l; simpl; constructor; auto. Qed.

Lemma Forall_map_intro {A B} (P : B → Prop) (h : A → B) (l : list A) :
  (∀ a, P (h a)) → Forall P (map h l).
Proof. intros H. induction l; simpl; constructor; auto. Qed.

Lemma attr_data name f sel : map datum (attr name f sel) = map datum sel.
Proof. unfold attr. rewrite map_map. reflexivity. Qed.

Lemma style_data name f sel : map datum (style name f sel) = map datum sel.
Proof. unfold style. rewrite map_map. reflexivity. Qed.

Lemma attr_styles name f sel : map styles (attr name f sel) = map styles sel.
Proof. unfold attr. rewrite map_map. reflexivity. Qed.

Lemma style_attrs name f sel : map attrs (style name f sel) = map attrs sel.
Proof. unfold style. rewrite map_map. reflexivity. Qed.

Lemma setAttribute_twice name v v' e :
  setAttribute name v (setAttribute name v' e) = setAttribute name v e.
Proof. unfold setAttribute. simpl. by rewrite insert_insert_eq. Qed.

Lemma setProperty_twice name v v' e :
  setProperty name v (setProperty name v' e) = setProperty name v e.
Proof. unfold setProperty. simpl. by rewrite insert_insert_eq. Qed.

Lemma setAttribute_comm name name' v v' e :
  name ≠ name' →
  setAttribute name v (setAttribute name' v' e)
  = setAttribute name' v' (setAttribute name v e).
Proof. intros Hne. unfold setAttribute. simpl. by rewrite insert_insert_ne. Qed.

(** Writing the same attribute again, from the same data, changes
    nothing. *)
Lemma attr_idempotent name f sel : attr name f (attr name f sel) = attr name f sel.
Proof.
  unfold attr. rewrite map_map. apply map_ext. intros e. simpl.
  apply setAttribute_twice.
Qed.


Lemma attr_comm name name' f g sel :
  name ≠ name' →
  attr name f (attr name' g sel) = attr name' g (attr name f sel).
Proof.
  intros Hne. unfold attr. rewrite !map_map. apply map_ext. intros e. simpl.
  by apply setAttribute_comm.
Qed.

(** An attribute other than the one written keeps its value. *)
Lemma attr_frame name f sel :
  Forall2 (λ e e', ∀ other, other ≠ name → attrs e' !! other = attrs e !! other)
    sel (attr name f sel).
Proof.
  apply Forall2_map_intro. intros e other Hne. simpl. by rewrite lookup_insert_ne.
Qed.

Lemma style_frame name f sel :
  Forall2 (λ e e', ∀ other, other ≠ name → styles e' !! other = styles e !! other)
    sel (style name f sel).
Proof.
  apply Forall2_map_intro. intros e other Hne. simpl. by rewrite lookup_insert_ne.
Qed.

End SelectionFacts.

(** ** The tick handler *)

Section RenderFacts.

Import Types Geometry Dom Render Forces MapComponent.
Local Open Scope R_scope.

Lemma shift_16 : imgXShift = 16 ∧ imgYShift = 16.
Proof. unfold imgXShift, imgYShift. split; lra. Qed.

(** The second router of the sample lies right of a 200 x 200
    container: its image is held at the border. *)
Example computeTransform_sample :
  computeTransform Sample.store0 Zoom.zoomIdentity 200 200 2%positive
  = translate 144 84.
Proof.
  unfold computeTransform, translate, Zoom.applyX, Zoom.applyY, radius. simpl.
  destruct shift_16 as [-> ->].
  replace (400 * 1 + 0) with 400 by ring. replace (100 * 1 + 0) with 100 by ring.
  replace (200 - 40) with 160 by ring.
  change (Math.max 40 (Math.min 160 400)) with (clamp 40 160 400).
  change (Math.max 40 (Math.min 160 100)) with (clamp 40 160 100).
  rewrite clamp_above, clamp_inside.
  by replace (160 - 16) with 144 by ring; replace (100 - 16) with 84 by ring.
Qed.

(** C3: on a tick, with the store's current coordinates and the
    component's current transform, every link path runs between the
    transforms of its source and target coordinates clamped into
    [40, width-40] x [40, height-40] (an arc if the link is repeated, a
    line otherwise); every label is put at the transform of the point
    at distance 30 (repeated) or 60 from the source, on the line to the
    target when the two differ; every node is translated to the clamp
    of its transformed coordinate, less 16 in x and in y.  Here the
    clamp of [v] is [v] inside a non-empty interval and the nearer
    bound outside. *)
Theorem ticked_screen_positions (c : Captured) (w : World) :
  let σ := store w in
  let tr := transform (this w) in
  let wd := captured_width c in
  let ht := captured_height c in
  let after := scene (page (tickHandler c w)) in
  Forall2
    (λ e e',
       let d := datum e in
       let x1 := Zoom.applyX tr (clamp 40 (wd - 40) (x (σ (source d)))) in
       let y1 := Zoom.applyY tr (clamp 40 (ht - 40) (y (σ (source d)))) in
       let x2 := Zoom.applyX tr (clamp 40 (wd - 40) (x (σ (target d)))) in
       let y2 := Zoom.applyY tr (clamp 40 (ht - 40) (y (σ (target d)))) in
       attrs e' !! "d"
       = Some (if repeated d
               then arcPath x1 y1
                      (sqrt ((x2 - x1) * (x2 - x1) + (y2 - y1) * (y2 - y1))) x2 y2
               else linePath x1 y1 x2 y2))
    (link (scene (page w))) (link after)
  ∧ Forall2
      (λ e e',
         let d := datum e in
         let s := σ (source d) in
         let t := σ (target d) in
         let offset := if repeated d then 30 else 60 in
         ∃ px py : R,
           attrs e' !! "x" = Some [Num (Zoom.applyX tr px)]
           ∧ attrs e' !! "y" = Some [Num (Zoom.applyY tr py)]
           ∧ (px - x s) * (px - x s) + (py - y s) * (py - y s) = offset * offset
           ∧ (¬ (x t - x s = 0 ∧ y t - y s = 0) →
              let len :=
                sqrt ((x t - x s) * (x t - x s) + (y t - y s) * (y t - y s)) in
              px = x s + offset / len * (x t - x s)
              ∧ py = y s + offset / len * (y t - y s)))
      (linkLabel (scene (page w))) (linkLabel after)
  ∧ Forall2
      (λ e e',
         let n := σ (datum e) in
         attrs e' !! "transform"
         = Some (translate
                   (clamp 40 (wd - 40) (Zoom.applyX tr (x n)) - 16)
                   (clamp 40 (ht - 40) (Zoom.applyY tr (y n)) - 16)))
      (node (scene (page w))) (node after)
  ∧ (∀ lo hi v : R, lo <= hi → clamped lo hi v (clamp lo hi v)).
Proof.
  intros σ tr wd ht after. subst after. simpl.
  split; [| split; [| split]].
  - apply Forall2_map_intro. intros e. simpl.
    rewrite lookup_insert_eq. unfold computeLink. fold σ.
    by destruct (repeated (datum e)).
  - unfold attr. rewrite !map_map. apply Forall2_map_intro. intros e. simpl.
    fold σ tr.
    set (s := σ (source (datum e))). set (t := σ (target (datum e))).
    set (offset := if repeated (datum e) then 30 else 60).
    exists (xpos offset s t), (ypos offset s t).
    split; [| split; [| split]].
    + by rewrite lookup_insert_ne, lookup_insert_eq.
    + by rewrite lookup_insert_eq.
    + apply label_point_distance.
    + intros Hne. by apply label_point_direction.
  - apply Forall2_map_intro. intros e. simpl.
    rewrite lookup_insert_eq. unfold computeTransform, translate, radius.
    destruct shift_16 as [-> ->]. reflexivity.
  - apply clamp_clamped.
Qed.

Lemma ticked_screen_positions_witness :
  (∃ px py : R,
     px = 100 + 60 / sqrt ((400 - 100) * (400 - 100) + (100 - 100) * (100 - 100))
                * (400 - 100)
     ∧ py = 100 + 60 / sqrt ((400 - 100) * (400 - 100) + (100 - 100) * (100 - 100))
                  * (100 - 100))
  ∧ clamped 40 160 400 (clamp 40 160 400).
Proof.
  destruct (ticked_screen_positions
              {| captured_width := 200; captured_height := 200 |} Sample.world0)
    as (_ & Hlabel & _ & Hclamp).
  split.
  - simpl in Hlabel. apply Forall2_cons_1 in Hlabel as [(px & py & _ & _ & _ & Hdir) _].
    exists px, py. apply Hdir. simpl. lra.
  - apply Hclamp. lra.
Defined.

(** C8: in a container at least 80 wide and 80 high, whatever the
    transform and the coordinates, every node is translated to a point
    of [24, width-56] x [24, height-56], the clamp being taken after the
    transform; a link endpoint, clamped before the transform, can lie
    outside the container. *)
Theorem node_position_in_viewport (σ : Store) (tr : Zoom.ZoomTransform)
    (sc : Scene) (wd ht : R) :
  80 <= wd → 80 <= ht →
  Forall
    (λ e', ∃ nx ny : R,
       attrs e' !! "transform" = Some (translate nx ny)
       ∧ 24 <= nx <= wd - 56 ∧ 24 <= ny <= ht - 56)
    (node (ticked σ tr sc wd ht))
  ∧ ∃ (σ' : Store) (tr' : Zoom.ZoomTransform) (d : LinkI) (x1 y1 x2 y2 : R),
      computeLink σ' d tr' radius wd ht = linePath x1 y1 x2 y2 ∧ wd < x1.
Proof.
  intros Hw Hh. split.
  - simpl. apply Forall_map_intro. intros e. simpl.
    eexists _, _. split.
    + rewrite lookup_insert_eq. reflexivity.
    + destruct shift_16 as [-> ->]. unfold radius.
      pose proof (clamp_clamped 40 (wd - 40) (Zoom.applyX tr (x (σ (datum e)))))
        as [Hx _]; [lra |].
      pose proof (clamp_clamped 40 (ht - 40) (Zoom.applyY tr (y (σ (datum e)))))
        as [Hy _]; [lra |].
      unfold clamp in Hx, Hy. lra.
  - exists Sample.store0, {| Zoom.k := 1; Zoom.x := wd; Zoom.y := 0 |}, Sample.link12.
    eexists _, _, _, _. split; [reflexivity |].
    unfold Zoom.applyX. simpl.
    pose proof (clamp_clamped 40 (wd - 40) 100) as [Hx _]; [lra |].
    unfold clamp, radius in *. lra.
Qed.

Lemma node_position_in_viewport_witness :
  Forall
    (λ e', ∃ nx ny : R,
       attrs e' !! "transform" = Some (translate nx ny)
       ∧ 24 <= nx <= 200 - 56 ∧ 24 <= ny <= 200 - 56)
    (node (ticked Sample.store0 {| Zoom.k := 3; Zoom.x := -50; Zoom.y := 7 |}
             Sample.scene0 200 200)).
Proof.
  apply (node_position_in_viewport Sample.store0
           {| Zoom.k := 3; Zoom.x := -50; Zoom.y := 7 |} Sample.scene0 200 200); lra.
Defined.

End RenderFacts.

(** ** The nodes the simulation is given *)

Section InitializeFacts.

Import Types Forces.



Lemma initializeNodes_ieeeAddr i ns σ r :
  ieeeAddr (initializeNodes i ns σ r) = ieeeAddr (σ r).
Proof.
  revert i σ. induction ns as [| r0 ns IH]; intros i σ; simpl; [done |].
  rewrite IH. by destruct (Pos.eqb_spec r r0) as [-> |].
Qed.

Lemma initializeNodes_fixed i ns σ r :
  fx (initializeNodes i ns σ r) = fx (σ r) ∧ fy (initializeNodes i ns σ r) = fy (σ r).
Proof.
  revert i σ. induction ns as [| r0 ns IH]; intros i σ; simpl; [done |].
  destruct (IH (S i)
              (λ r', if Pos.eqb r' r0 then initializeNode i (σ r0) else σ r'))
    as [-> ->].
  by destruct (Pos.eqb_spec r r0) as [-> |].
Qed.





End InitializeFacts.

(** ** The highlight function *)

Section HighlightFacts.

Import Types Dom Highlights Forces MapComponent.

Lemma elem_of_fold_union {A} (f : A → string) (l : list A) (s0 : gset string) k :
  k ∈ fold_left (λ s a, s ∪ {[ f a ]}) l s0 ↔ k ∈ s0 ∨ ∃ a, a ∈ l ∧ k = f a.
Proof.
  revert s0. induction l as [| a l IH]; intros s0; simpl.
  - split; [auto |]. intros [H | (a & Ha & _)]; [done |]. by apply elem_of_nil in Ha.
  - rewrite IH, elem_of_union, elem_of_singleton. split.
    + intros [[H | ->] | (b & Hb & ->)]; [by left | right | right].
      * exists a. split; [left | done].
      * exists b. split; [by right | done].
    + intros [H | (b & Hb & ->)]; [by left; left |].
      apply elem_of_cons in Hb as [-> | Hb]; [left; by right |].
      right. by exists b.
Qed.

(** What the link index holds: the self-pair of every node of the
    graph and the pair of every link passed in. *)
Lemma elem_of_linkedByIndex σ g ls k :
  k ∈ linkedByIndex σ g ls
  ↔ (∃ n, n ∈ nodes g ∧ k = key (ieeeAddr (σ n)) (ieeeAddr (σ n)))
    ∨ (∃ l, l ∈ ls ∧ k = key (sourceIeeeAddr l) (targetIeeeAddr l)).
Proof.
  unfold linkedByIndex. cbv zeta.
  rewrite (elem_of_fold_union (λ l, key (sourceIeeeAddr l) (targetIeeeAddr l))).
  rewrite (elem_of_fold_union (λ n, key (ieeeAddr (σ n)) (ieeeAddr (σ n)))).
  rewrite elem_of_empty. tauto.
Qed.

Lemma linkedByIndex_store_local σ σ' g ls :
  (∀ n, n ∈ nodes g → ieeeAddr (σ' n) = ieeeAddr (σ n)) →
  linkedByIndex σ' g ls = linkedByIndex σ g ls.
Proof.
  intros Hn. apply set_eq. intros k. rewrite !elem_of_linkedByIndex.
  split; (intros [(n & Hin & ->) | H]; [left | by right]);
    exists n; (split; [done |]); by rewrite (Hn n Hin).
Qed.

(** [processHighlights] reads the store only for the addresses of the
    nodes of the graph, of the selected node and of the node elements. *)
Lemma processHighlights_store_local σ σ' g ls sel sc :
  (∀ n, n ∈ nodes g → ieeeAddr (σ' n) = ieeeAddr (σ n)) →
  (∀ n, sel = Some n → ieeeAddr (σ' n) = ieeeAddr (σ n)) →
  (∀ e, e ∈ node sc → ieeeAddr (σ' (datum e)) = ieeeAddr (σ (datum e))) →
  processHighlights σ' g ls sel sc = processHighlights σ g ls sel sc.
Proof.
  intros Hg Hs He. unfold processHighlights. cbv zeta.
  rewrite (linkedByIndex_store_local σ σ' g ls Hg).
  destruct sel as [n |]; [| done]. f_equal.
  unfold style. apply map_ext_in. intros e Hin. apply list_elem_of_In in Hin.
  unfold neighboring. by rewrite (Hs n eq_refl), (He e Hin).
Qed.

Lemma opacity_values_differ : opacityFull ≠ opacityDim.
Proof. unfold opacityFull, opacityDim. intros [= H]. lra. Qed.

Lemma elem_of_visible g vis l :
  l ∈ visible g vis ↔ l ∈ links g ∧ relationship l ∈ vis.
Proof. unfold visible. rewrite list_elem_of_filter. tauto. Qed.

(** What [updateNodes] hands to the highlight function. *)
Lemma updateNodes_scene w w' :
  updateNodes w = Some w' →
  scene (page w')
  = processHighlights (store w) (networkGraph (this w))
      (visible (networkGraph (this w)) (visibleLinks (state (this w))))
      (selectedNode (state (this w))) (scene (page w)).
Proof.
  unfold updateNodes. cbv zeta.
  destruct (getForce "link" _) as [[] |]; try discriminate.
  intros [= <-]. simpl.
  apply processHighlights_store_local; intros; apply initializeNodes_ieeeAddr.
Qed.

Lemma updateNodes_state w w' :
  updateNodes w = Some w' →
  state (this w') = state (this w) ∧ networkGraph (this w') = networkGraph (this w).
Proof.
  unfold updateNodes. cbv zeta.
  destruct (getForce "link" _) as [[] |]; try discriminate.
  by intros [= <-].
Qed.

(** C2: with a node selected, a node element gets opacity 1 if its
    node is a neighbour of the selected one in either direction in the
    link index, and 0.15 if not; a link path (stroke-opacity) and a
    link label (opacity) get 1 if the link's source or target is the
    selected node, and 0.15 if not.  The index holds exactly the
    self-pair of every node of the graph and the pair of every link
    passed in, and [updateNodes] passes the links of the graph whose
    relationship is currently visible. *)
Theorem processHighlights_selected (σ : Store) (g : GraphI) (ls : list LinkI)
    (sel : ref) (sc : Scene) :
  let idx := linkedByIndex σ g ls in
  let after := processHighlights σ g ls (Some sel) sc in
  let neighbour (a b : ref) := key (ieeeAddr (σ a)) (ieeeAddr (σ b)) ∈ idx in
  Forall2
    (λ e e',
       (neighbour sel (datum e) ∨ neighbour (datum e) sel →
        styles e' !! "opacity" = Some opacityFull)
       ∧ (¬ (neighbour sel (datum e) ∨ neighbour (datum e) sel) →
          styles e' !! "opacity" = Some opacityDim))
    (node sc) (node after)
  ∧ Forall2
      (λ e e',
         (source (datum e) = sel ∨ target (datum e) = sel →
          styles e' !! "stroke-opacity" = Some opacityFull)
         ∧ (¬ (source (datum e) = sel ∨ target (datum e) = sel) →
            styles e' !! "stroke-opacity" = Some opacityDim))
      (link sc) (link after)
  ∧ Forall2
      (λ e e',
         (source (datum e) = sel ∨ target (datum e) = sel →
          styles e' !! "opacity" = Some opacityFull)
         ∧ (¬ (source (datum e) = sel ∨ target (datum e) = sel) →
            styles e' !! "opacity" = Some opacityDim))
      (linkLabel sc) (linkLabel after)
  ∧ opacityFull ≠ opacityDim
  ∧ (∀ k : string,
       k ∈ idx
       ↔ (∃ n, n ∈ nodes g ∧ k = key (ieeeAddr (σ n)) (ieeeAddr (σ n)))
         ∨ (∃ l, l ∈ ls ∧ k = key (sourceIeeeAddr l) (targetIeeeAddr l)))
  ∧ (∀ w w' : World,
       updateNodes w = Some w' →
       scene (page w')
       = processHighlights (store w) (networkGraph (this w))
           (visible (networkGraph (this w)) (visibleLinks (state (this w))))
           (selectedNode (state (this w))) (scene (page w))
       ∧ ∀ l : LinkI,
           l ∈ visible (networkGraph (this w)) (visibleLinks (state (this w)))
           ↔ l ∈ links (networkGraph (this w))
             ∧ relationship l ∈ visibleLinks (state (this w))).
Proof.
  intros idx after neighbour. subst after. simpl.
  assert (Hlink : ∀ l : LinkI,
            (source l = sel ∨ target l = sel →
             computeOpacity (Some sel) l = opacityFull)
            ∧ (¬ (source l = sel ∨ target l = sel) →
               computeOpacity (Some sel) l = opacityDim)).
  { intros l. unfold computeOpacity. split.
    - intros [H | H].
      + by rewrite (bool_decide_eq_true_2 (Some (source l) = Some sel)) by (by f_equal).
      + rewrite (bool_decide_eq_true_2 (Some (target l) = Some sel)) by (by f_equal).
        by rewrite orb_true_r.
    - intros Hn.
      rewrite !bool_decide_eq_false_2; [done | |]; intros [= ?]; apply Hn; auto. }
  split; [| split; [| split; [| split; [| split]]]].
  - apply Forall2_map_intro. intros e. simpl. rewrite lookup_insert_eq.
    unfold neighboring. fold idx. split.
    + intros [H | H].
      * by rewrite (bool_decide_eq_true_2 _ H).
      * rewrite (bool_decide_eq_true_2 _ H). by rewrite orb_true_r.
    + intros Hn.
      rewrite !bool_decide_eq_false_2; [done | |]; intros ?; apply Hn; auto.
  - apply Forall2_map_intro. intros e. simpl. rewrite lookup_insert_eq.
    destruct (Hlink (datum e)) as [H1 H2].
    split; intros H; f_equal; auto.
  - apply Forall2_map_intro. intros e. simpl. rewrite lookup_insert_eq.
    destruct (Hlink (datum e)) as [H1 H2].
    split; intros H; f_equal; auto.
  - apply opacity_values_differ.
  - apply elem_of_linkedByIndex.
  - intros w w' Hw. split; [by apply updateNodes_scene | apply elem_of_visible].
Qed.

Lemma sample_index (k : string) :
  k ∈ linkedByIndex Sample.store0 Sample.graph0 [Sample.link12]
  ↔ k = "0x01,0x01" ∨ k = "0x02,0x02" ∨ k = "0x03,0x03" ∨ k = "0x01,0x02".
Proof.
  rewrite elem_of_linkedByIndex. split.
  - intros [(n & Hn & ->) | (l & Hl & ->)].
    + simpl in Hn. set_unfold. destruct Hn as [-> | [-> | [-> | []]]]; auto.
    + set_unfold. destruct Hl as [-> | []]. auto.
  - intros [-> | [-> | [-> | ->]]].
    + left. exists 1%positive. split; [set_solver | done].
    + left. exists 2%positive. split; [simpl; set_solver | done].
    + left. exists 3%positive. split; [simpl; set_solver | done].
    + right. exists Sample.link12. split; [set_solver | done].
Qed.

Lemma processHighlights_selected_witness :
  Forall2
    (λ e e',
       styles e' !! "opacity"
       = Some (if Pos.eqb (datum e) 3 then opacityDim else opacityFull))
    (node Sample.scene0)
    (node (processHighlights Sample.store0 Sample.graph0 [Sample.link12]
             (Some 1%positive) Sample.scene0))
  ∧ scene (page (default Sample.world1 (updateNodes Sample.world1)))
    = processHighlights Sample.store0 Sample.graph0
        (visible Sample.graph0 [1%Z]) (Some 1%positive) Sample.scene0.
Proof.
  destruct (processHighlights_selected Sample.store0 Sample.graph0 [Sample.link12]
              1%positive Sample.scene0) as (Hnode & _ & _ & _ & _ & Hupd).
  split.
  - simpl in Hnode |- *.
    apply Forall2_cons_1 in Hnode as [[H1 _] Hnode].
    apply Forall2_cons_1 in Hnode as [[H2 _] Hnode].
    apply Forall2_cons_1 in Hnode as [[_ H3] _].
    constructor; [| constructor; [| constructor; [| constructor]]].
    + apply H1. left. apply sample_index. by left.
    + apply H2. left. apply sample_index. by do 3 right.
    + apply H3. rewrite !sample_index. simpl.
      intros [H | H]; repeat (destruct H as [H | H]; try discriminate H).
  - destruct (Hupd Sample.world1 (default Sample.world1 (updateNodes Sample.world1)))
      as [Hscene _].
    + reflexivity.
    + exact Hscene.
Defined.

(** C5: with no node selected, every node element and every link
    label gets opacity 1 and every link path stroke-opacity 1, for the
    same elements and data as before, whatever the graph and the
    links. *)
Theorem processHighlights_unselected (σ : Store) (g : GraphI) (ls : list LinkI)
    (sc : Scene) :
  let after := processHighlights σ g ls None sc in
  Forall (λ e', styles e' !! "opacity" = Some opacityFull) (node after)
  ∧ Forall (λ e', styles e' !! "stroke-opacity" = Some opacityFull) (link after)
  ∧ Forall (λ e', styles e' !! "opacity" = Some opacityFull) (linkLabel after)
  ∧ map datum (node after) = map datum (node sc)
  ∧ map datum (link after) = map datum (link sc)
  ∧ map datum (linkLabel after) = map datum (linkLabel sc)
  ∧ (∀ (σ' : Store) (g' : GraphI) (ls' : list LinkI),
       processHighlights σ' g' ls' None sc = after).
Proof.
  intros after. subst after. simpl.
  repeat split; try (apply Forall_map_intro; intros e; simpl; by rewrite lookup_insert_eq);
    apply style_data.
Qed.

(** C9: the index holds the self-pair of every node of the graph;
    hence, when the selected node's address is that of a node of the
    graph, every node element with that address (the selected node's
    own element among them) gets opacity 1. *)
Theorem selected_node_never_dimmed (σ : Store) (g : GraphI) (ls : list LinkI)
    (sel : ref) (sc : Scene) :
  (∀ n : ref,
     n ∈ nodes g → key (ieeeAddr (σ n)) (ieeeAddr (σ n)) ∈ linkedByIndex σ g ls)
  ∧ ((∃ n : ref, n ∈ nodes g ∧ ieeeAddr (σ n) = ieeeAddr (σ sel)) →
     Forall2
       (λ e e',
          ieeeAddr (σ (datum e)) = ieeeAddr (σ sel) →
          styles e' !! "opacity" = Some opacityFull)
       (node sc) (node (processHighlights σ g ls (Some sel) sc))).
Proof.
  split.
  - intros n Hn. apply elem_of_linkedByIndex. left. by exists n.
  - intros (n & Hn & Haddr). simpl. apply Forall2_map_intro. intros e He. simpl.
    rewrite lookup_insert_eq. f_equal. unfold neighboring.
    rewrite bool_decide_eq_true_2; [done |].
    apply elem_of_linkedByIndex. left. exists n. split; [done |].
    by rewrite He, Haddr.
Qed.

Lemma selected_node_never_dimmed_witness :
  key "0x01" "0x01" ∈ linkedByIndex Sample.store0 Sample.graph0 []
  ∧ Forall2
      (λ e e',
         ieeeAddr (Sample.store0 (datum e)) = ieeeAddr (Sample.store0 1%positive) →
         styles e' !! "opacity" = Some opacityFull)
      (node Sample.scene0)
      (node (processHighlights Sample.store0 Sample.graph0 [] (Some 1%positive)
               Sample.scene0)).
Proof.
  destruct (selected_node_never_dimmed Sample.store0 Sample.graph0 [] 1%positive
              Sample.scene0) as [Hself Hsel].
  split.
  - apply (Hself 1%positive). simpl. left.
  - apply Hsel. exists 1%positive. split; [simpl; left | reflexivity].
Defined.

End HighlightFacts.

(** ** Effects of the two handlers *)

Section EffectFacts.

Import Types Dom Render Highlights.
Local Open Scope R_scope.



(** A second run on the result of the first changes nothing. *)
Lemma ticked_idempotent σ tr sc wd ht :
  ticked σ tr (ticked σ tr sc wd ht) wd ht = ticked σ tr sc wd ht.
Proof.
  unfold ticked. simpl. f_equal.
  - apply attr_idempotent.
  - apply attr_idempotent.
  - unfold attr. rewrite !map_map. apply map_ext. intros e. simpl.
    unfold setAttribute. simpl. f_equal.
    apply map_eq. intros i. rewrite !lookup_insert.
    repeat case_decide; done.
Qed.








End EffectFacts.

(** ** The force configuration and the zoom handler *)

Section ComponentFacts.

Import Types Dom Render Forces MapComponent.
Local Open Scope R_scope.

Example getForce_after_updateForces :
  getForce "collisionForce" (forces (simulation (updateForces 200 200 Sample.component0)))
  = Some (OfCollide {| collide_radius := Some 40; collide_strength := Some 1 |}).
Proof. reflexivity. Qed.

Example setForce_replaces :
  setForce "x" (OfY forceY) [("link", OfLink forceLink); ("x", OfX forceX)]
  = [("link", OfLink forceLink); ("x", OfY forceY)].
Proof. reflexivity. Qed.

(** C6: [updateForces width height] replaces the simulation by a fresh
    one holding exactly seven forces: [link], keyed by [ieeeAddr], with
    distance [getDistance] and strength 0.2; [charge], of strength -200
    between distances 200 and 1000; [collisionForce], of radius 40 and
    strength 1; [repelForce], of strength -140 between distances 20
    and 50; [center], at (width/2, height/2); and [x] and [y], with the
    library's defaults.  The rest of the component is unchanged. *)
Theorem updateForces_parameters (wd ht : R) (c : Component) :
  forces (simulation (updateForces wd ht c))
  = [ ("link",
       OfLink {| link_id := Some ieeeAddr;
                 link_distance := Some Distance.getDistance;
                 link_strength := Some 0.2;
                 link_links := [] |});
      ("charge",
       OfManyBody {| body_strength := Some (-200);
                     body_distanceMin := Some 200;
                     body_distanceMax := Some 1000 |});
      ("collisionForce",
       OfCollide {| collide_radius := Some 40; collide_strength := Some 1 |});
      ("repelForce",
       OfManyBody {| body_strength := Some (-140);
                     body_distanceMin := Some 20;
                     body_distanceMax := Some 50 |});
      ("center",
       OfCenter {| center_x := Some (wd / 2); center_y := Some (ht / 2) |});
      ("x", OfX {| position_target := None; position_strength := None |});
      ("y", OfY {| position_target := None; position_strength := None |}) ]
  ∧ simulationNodes (simulation (updateForces wd ht c)) = []
  ∧ onTick (simulation (updateForces wd ht c)) = None
  ∧ networkGraph (updateForces wd ht c) = networkGraph c
  ∧ state (updateForces wd ht c) = state c
  ∧ transform (updateForces wd ht c) = transform c.
Proof. repeat split. Qed.

Lemma updateNodes_listeners w w' :
  updateNodes w = Some w' →
  let c := {| captured_width := width (state (this w));
              captured_height := height (state (this w)) |} in
  onZoom (page w') = Some c
  ∧ onTick (simulation (this w')) = Some c
  ∧ store w'
    = initializeNodes 0 (nodes (networkGraph (this w))) (store w)
  ∧ transform (this w') = transform (this w)
  ∧ everything (page w') = everything (page w).
Proof.
  unfold updateNodes. cbv zeta.
  destruct (getForce "link" _) as [[] |]; try discriminate.
  by intros [= <-].
Qed.

(** After [componentDidMount] the simulation has its link force, and
    [updateNodes] goes through. *)
Lemma updateNodes_after_updateForces wd ht c pg σ :
  is_Some (updateNodes {| this := updateForces wd ht c; page := pg; store := σ |}).
Proof. unfold updateNodes. simpl. by eexists. Qed.

(** C7: a zoom or pan event carrying [tr], once [updateNodes] has
    installed the handler, writes [tr] into the [transform] attribute
    of the group [.everything] (and nothing else of it), makes [tr] the
    component's transform, and leaves the scene as [ticked] computes it
    under [tr], for the size the handler captured; the state, the
    simulation and the store are unchanged, and a tick that follows
    uses the stored transform and so changes nothing. *)
Theorem zoom_event_retransforms (w w1 : World) (tr : Zoom.ZoomTransform) :
  updateNodes w = Some w1 →
  let w2 := zoomEvent tr w1 in
  attrs (everything (page w2)) !! "transform" = Some (transformValue tr)
  ∧ (∀ a, a ≠ "transform" →
          attrs (everything (page w2)) !! a = attrs (everything (page w1)) !! a)
  ∧ styles (everything (page w2)) = styles (everything (page w1))
  ∧ transform (this w2) = tr
  ∧ scene (page w2)
    = ticked (store w1) tr (scene (page w1))
        (width (state (this w))) (height (state (this w)))
  ∧ state (this w2) = state (this w1)
  ∧ simulation (this w2) = simulation (this w1)
  ∧ networkGraph (this w2) = networkGraph (this w1)
  ∧ store w2 = store w1
  ∧ tickEvent w2 = w2.
Proof.
  intros Hupd w2.
  destruct (updateNodes_listeners w w1 Hupd) as (Hz & Ht & _).
  subst w2. unfold zoomEvent. rewrite Hz. unfold zoomHandler. simpl.
  repeat split.
  - by rewrite lookup_insert_eq.
  - intros a Ha. by rewrite lookup_insert_ne.
  - unfold tickEvent. simpl. rewrite Ht. unfold tickHandler. simpl.
    by rewrite ticked_idempotent.
Qed.

Lemma zoom_event_retransforms_witness :
  transform
    (this (zoomEvent {| Zoom.k := 2; Zoom.x := 10; Zoom.y := 20 |}
             (default Sample.world0 (updateNodes Sample.world0))))
  = {| Zoom.k := 2; Zoom.x := 10; Zoom.y := 20 |}
  ∧ tickEvent
      (zoomEvent {| Zoom.k := 2; Zoom.x := 10; Zoom.y := 20 |}
         (default Sample.world0 (updateNodes Sample.world0)))
    = zoomEvent {| Zoom.k := 2; Zoom.x := 10; Zoom.y := 20 |}
        (default Sample.world0 (updateNodes Sample.world0)).
Proof.
  destruct (zoom_event_retransforms Sample.world0
              (default Sample.world0 (updateNodes Sample.world0))
              {| Zoom.k := 2; Zoom.x := 10; Zoom.y := 20 |})
    as (_ & _ & _ & Htr & _ & _ & _ & _ & _ & Htick).
  - reflexivity.
  - split; [exact Htr | exact Htick].
Defined.

End ComponentFacts.

(** ** More on the distance function *)

Section DistanceRange.

Import Types Distance.

Lemma baseDistance_bounds lt : (100 <= baseDistance lt <= 450)%Z.
Proof.
  unfold baseDistance.
  repeat match goal with
  | |- context [String.eqb lt ?s] => destruct (String.eqb lt s)
  end; lia.
Qed.

(** X1: for a link type that is not a name inherited from
    [Object.prototype], on a non-negative depth the result is a number
    between 100 and 650; in particular it is positive. *)
Theorem getDistance_range (d : LinkI) :
  linkType d ∉ objectPrototype → num_le (ofZ 0) (depth d) →
  ∃ a : Z, getDistance d = Length a ∧ (100 <= a <= 650)%Z.
Proof.
  intros Hlt Hd. eexists. split; [by apply getDistance_length |].
  pose proof (baseDistance_bounds (linkType d)).
  pose proof (depth_term_bounds (depth d) Hd). lia.
Qed.

Lemma getDistance_range_witness :
  ∃ a : Z,
    getDistance (routerLink (Fin (27 # 10))) = Length a ∧ (100 <= a <= 650)%Z.
Proof.
  apply getDistance_range.
  - apply router_not_inherited.
  - vm_compute. discriminate.
Defined.

Lemma truncQ_below_4 q : (q < 4)%Q → (truncQ q < 4)%Z.
Proof.
  intros Hq. destruct (Qlt_le_dec q 0) as [Hneg | Hpos].
  - pose proof (truncQ_nonpos q (Qlt_le_weak _ _ Hneg)). lia.
  - rewrite truncQ_floor by done.
    destruct (Z_lt_le_dec (Qfloor q) 4) as [? | Hge]; [done |].
    exfalso. apply (Qlt_irrefl q). eapply Qlt_le_trans; [exact Hq |].
    eapply Qle_trans; [| apply Qfloor_le].
    change 4%Q with (inject_Z 4). by rewrite <- Zle_Qle.
Qed.

Lemma truncQ_from_4 q : (4 <= q)%Q → (4 <= truncQ q)%Z.
Proof.
  intros Hq. apply (truncQ_nonneg_le 4 q); [done | exact Hq].
Qed.

(** X2: only the integer part of a finite depth counts: a depth and
    its truncation toward zero give the same length. *)
Theorem getDistance_integer_part (d : LinkI) (q : Q) :
  getDistance (withDepth d (Fin q)) = getDistance (withDepth d (ofZ (truncQ q))).
Proof.
  apply getDistance_depends; [done |]. rewrite !depth_withDepth.
  unfold ofZ. simpl.
  destruct (Qle_bool (inject_Z 4) q) eqn:E.
  - apply Qle_bool_iff in E. pose proof (truncQ_from_4 q E) as H4.
    rewrite Zle_Qle in H4. apply Qle_bool_iff in H4.
    change (inject_Z 4) with 4%Q in *. by rewrite H4.
  - assert (Hlt : (q < 4)%Q).
    { destruct (Qlt_le_dec q 4) as [? | Hle]; [done |].
      apply Qle_bool_iff in Hle. change (inject_Z 4) with 4%Q in E. congruence. }
    pose proof (truncQ_below_4 q Hlt) as H4.
    destruct (Qle_bool (inject_Z 4) (inject_Z (truncQ q))) eqn:E'.
    + apply Qle_bool_iff in E'. rewrite <- Zle_Qle in E'. lia.
    + by rewrite truncQ_inject_Z.
Qed.

End DistanceRange.

(** ** More on the positions the tick handler writes *)

Section PlacementFacts.

Import Types Geometry Dom Render Lifecycle.
Local Open Scope R_scope.

Lemma applyX_identity v : Zoom.applyX Zoom.zoomIdentity v = v.
Proof. unfold Zoom.applyX. simpl. ring. Qed.

Lemma applyY_identity v : Zoom.applyY Zoom.zoomIdentity v = v.
Proof. unfold Zoom.applyY. simpl. ring. Qed.

Lemma clamp_inactive lo hi v : lo <= v <= hi → clamp lo hi v = v.
Proof. intros Hv. apply (clamp_clamped lo hi v); lra. Qed.

Lemma clamp_bounds lo hi v : lo <= hi → lo <= clamp lo hi v <= hi.
Proof. intros H. by apply (clamp_clamped lo hi v). Qed.

(** The shape of a path, whichever the kind of link. *)
Lemma computeLink_path σ d tr wd ht :
  computeLink σ d tr radius wd ht
  = let x1 := Zoom.applyX tr (clamp 40 (wd - 40) (x (σ (source d)))) in
    let y1 := Zoom.applyY tr (clamp 40 (ht - 40) (y (σ (source d)))) in
    let x2 := Zoom.applyX tr (clamp 40 (wd - 40) (x (σ (target d)))) in
    let y2 := Zoom.applyY tr (clamp 40 (ht - 40) (y (σ (target d)))) in
    if repeated d
    then arcPath x1 y1 (sqrt ((x2 - x1) * (x2 - x1) + (y2 - y1) * (y2 - y1))) x2 y2
    else linePath x1 y1 x2 y2.
Proof. unfold computeLink. by destruct (repeated d). Qed.

Lemma computeTransform_translate σ tr wd ht n :
  computeTransform σ tr wd ht n
  = translate (clamp 40 (wd - 40) (Zoom.applyX tr (x (σ n))) - 16)
              (clamp 40 (ht - 40) (Zoom.applyY tr (y (σ n))) - 16).
Proof.
  unfold computeTransform, translate, radius. destruct shift_16 as [-> ->].
  reflexivity.
Qed.

(** X3: a link path ends at the centres of the images of its two
    nodes (the image is 32 wide and high, translated by 16 less than
    the centre) under the identity transform, always; and under any
    transform at a node whose coordinate and transformed coordinate
    both lie inside the clamping rectangle. *)
Theorem link_ends_at_node_centres (σ : Store) (d : LinkI) (wd ht : R) :
  (∃ x1 y1 x2 y2 r : R,
     computeLink σ d Zoom.zoomIdentity radius wd ht
     = (if repeated d then arcPath x1 y1 r x2 y2 else linePath x1 y1 x2 y2)
     ∧ computeTransform σ Zoom.zoomIdentity wd ht (source d)
       = translate (x1 - 16) (y1 - 16)
     ∧ computeTransform σ Zoom.zoomIdentity wd ht (target d)
       = translate (x2 - 16) (y2 - 16))
  ∧ (∀ tr : Zoom.ZoomTransform,
       40 <= x (σ (source d)) <= wd - 40 →
       40 <= y (σ (source d)) <= ht - 40 →
       40 <= Zoom.applyX tr (x (σ (source d))) <= wd - 40 →
       40 <= Zoom.applyY tr (y (σ (source d))) <= ht - 40 →
       ∃ x1 y1 x2 y2 r : R,
         computeLink σ d tr radius wd ht
         = (if repeated d then arcPath x1 y1 r x2 y2 else linePath x1 y1 x2 y2)
         ∧ computeTransform σ tr wd ht (source d) = translate (x1 - 16) (y1 - 16)).
Proof.
  split.
  - eexists _, _, _, _, _. rewrite computeLink_path, !computeTransform_translate.
    cbv zeta. rewrite !applyX_identity, !applyY_identity. eauto.
  - intros tr Hx Hy Hx' Hy'.
    eexists _, _, _, _, _. rewrite computeLink_path, computeTransform_translate.
    cbv zeta. split; [reflexivity |].
    by rewrite !clamp_inactive.
Qed.

Lemma link_ends_at_node_centres_witness :
  ∃ x1 y1 x2 y2 r : R,
    computeLink Sample.store0 Sample.link12
      {| Zoom.k := 1 / 2; Zoom.x := 10; Zoom.y := 0 |} radius 200 200
    = (if repeated Sample.link12 then arcPath x1 y1 r x2 y2 else linePath x1 y1 x2 y2)
    ∧ computeTransform Sample.store0
        {| Zoom.k := 1 / 2; Zoom.x := 10; Zoom.y := 0 |} 200 200
        (source Sample.link12)
      = translate (x1 - 16) (y1 - 16).
Proof.
  apply (proj2 (link_ends_at_node_centres Sample.store0 Sample.link12 200 200));
    unfold Zoom.applyX, Zoom.applyY; simpl; lra.
Defined.

(** X4: under a transform that does not mirror (scale at least 0), in
    a container at least 80 wide and high, both ends of a link path lie
    in the image of the clamping rectangle under the transform. *)
Theorem link_ends_in_transformed_rectangle (σ : Store) (d : LinkI)
    (tr : Zoom.ZoomTransform) (wd ht : R) :
  0 <= Zoom.k tr → 80 <= wd → 80 <= ht →
  ∃ x1 y1 x2 y2 r : R,
    computeLink σ d tr radius wd ht
    = (if repeated d then arcPath x1 y1 r x2 y2 else linePath x1 y1 x2 y2)
    ∧ Zoom.applyX tr 40 <= x1 <= Zoom.applyX tr (wd - 40)
    ∧ Zoom.applyY tr 40 <= y1 <= Zoom.applyY tr (ht - 40)
    ∧ Zoom.applyX tr 40 <= x2 <= Zoom.applyX tr (wd - 40)
    ∧ Zoom.applyY tr 40 <= y2 <= Zoom.applyY tr (ht - 40).
Proof.
  intros Hk Hw Hh.
  eexists _, _, _, _, _. rewrite computeLink_path. cbv zeta.
  split; [reflexivity |].
  pose proof (clamp_bounds 40 (wd - 40) (x (σ (source d)))) as H1.
  pose proof (clamp_bounds 40 (ht - 40) (y (σ (source d)))) as H2.
  pose proof (clamp_bounds 40 (wd - 40) (x (σ (target d)))) as H3.
  pose proof (clamp_bounds 40 (ht - 40) (y (σ (target d)))) as H4.
  unfold Zoom.applyX, Zoom.applyY. repeat split; nra.
Qed.

Lemma link_ends_in_transformed_rectangle_witness :
  ∃ x1 y1 x2 y2 r : R,
    computeLink Sample.store0 Sample.link12 Zoom.zoomIdentity radius 200 200
    = (if repeated Sample.link12 then arcPath x1 y1 r x2 y2 else linePath x1 y1 x2 y2)
    ∧ Zoom.applyX Zoom.zoomIdentity 40 <= x1 <= Zoom.applyX Zoom.zoomIdentity (200 - 40)
    ∧ Zoom.applyY Zoom.zoomIdentity 40 <= y1 <= Zoom.applyY Zoom.zoomIdentity (200 - 40)
    ∧ Zoom.applyX Zoom.zoomIdentity 40 <= x2 <= Zoom.applyX Zoom.zoomIdentity (200 - 40)
    ∧ Zoom.applyY Zoom.zoomIdentity 40 <= y2 <= Zoom.applyY Zoom.zoomIdentity (200 - 40).
Proof.
  apply link_ends_in_transformed_rectangle; simpl; lra.
Defined.

Lemma sqrt_scaled (c a b : R) :
  sqrt ((c * a) * (c * a) + (c * b) * (c * b)) = Rabs c * sqrt (a * a + b * b).
Proof.
  replace ((c * a) * (c * a) + (c * b) * (c * b)) with (c² * (a * a + b * b))
    by (unfold Rsqr; ring).
  rewrite sqrt_mult; [| apply Rle_0_sqr | nra].
  by rewrite sqrt_Rsqr_abs.
Qed.

(** X5: the arc drawn for a repeated link has as radius the distance
    between the two clamped end points, scaled by the absolute value of
    the zoom factor; the translation of the transform plays no part. *)
Theorem arc_radius_scales_with_zoom (σ : Store) (d : LinkI)
    (tr : Zoom.ZoomTransform) (wd ht : R) :
  repeated d = true →
  let cx1 := clamp 40 (wd - 40) (x (σ (source d))) in
  let cy1 := clamp 40 (ht - 40) (y (σ (source d))) in
  let cx2 := clamp 40 (wd - 40) (x (σ (target d))) in
  let cy2 := clamp 40 (ht - 40) (y (σ (target d))) in
  computeLink σ d tr radius wd ht
  = arcPath (Zoom.applyX tr cx1) (Zoom.applyY tr cy1)
      (Rabs (Zoom.k tr)
       * sqrt ((cx2 - cx1) * (cx2 - cx1) + (cy2 - cy1) * (cy2 - cy1)))
      (Zoom.applyX tr cx2) (Zoom.applyY tr cy2).
Proof.
  intros Hrep cx1 cy1 cx2 cy2. rewrite computeLink_path, Hrep. cbv zeta.
  fold cx1 cy1 cx2 cy2. unfold arcPath. rewrite <- sqrt_scaled.
  unfold Zoom.applyX, Zoom.applyY.
  replace (cx2 * Zoom.k tr + Zoom.x tr - (cx1 * Zoom.k tr + Zoom.x tr))
    with (Zoom.k tr * (cx2 - cx1)) by ring.
  replace (cy2 * Zoom.k tr + Zoom.y tr - (cy1 * Zoom.k tr + Zoom.y tr))
    with (Zoom.k tr * (cy2 - cy1)) by ring.
  reflexivity.
Qed.

Lemma arc_radius_scales_with_zoom_witness :
  computeLink Sample.store0 (withRepeated Sample.link12)
    {| Zoom.k := -2; Zoom.x := 5; Zoom.y := 7 |} radius 200 200
  = arcPath (Zoom.applyX {| Zoom.k := -2; Zoom.x := 5; Zoom.y := 7 |}
               (clamp 40 (200 - 40) 100))
      (Zoom.applyY {| Zoom.k := -2; Zoom.x := 5; Zoom.y := 7 |}
         (clamp 40 (200 - 40) 100))
      (Rabs (-2)
       * sqrt ((clamp 40 (200 - 40) 400 - clamp 40 (200 - 40) 100)
               * (clamp 40 (200 - 40) 400 - clamp 40 (200 - 40) 100)
               + (clamp 40 (200 - 40) 100 - clamp 40 (200 - 40) 100)
                 * (clamp 40 (200 - 40) 100 - clamp 40 (200 - 40) 100)))
      (Zoom.applyX {| Zoom.k := -2; Zoom.x := 5; Zoom.y := 7 |}
         (clamp 40 (200 - 40) 400))
      (Zoom.applyY {| Zoom.k := -2; Zoom.x := 5; Zoom.y := 7 |}
         (clamp 40 (200 - 40) 100)).
Proof.
  apply (arc_radius_scales_with_zoom Sample.store0 (withRepeated Sample.link12)
           {| Zoom.k := -2; Zoom.x := 5; Zoom.y := 7 |} 200 200).
  reflexivity.
Defined.

(** X6: where the label goes.  If source and target have the same
    coordinates, the label is put [offset] to the right of them; if
    they are apart by at least [offset] (which is not negative), it
    lies on the segment from source to target, and if by less, beyond
    the target. *)
Theorem label_placement (offset : R) (s t : NodeI) :
  let len := sqrt ((x t - x s) * (x t - x s) + (y t - y s) * (y t - y s)) in
  (x t = x s → y t = y s →
   xpos offset s t = x s + offset ∧ ypos offset s t = y s)
  ∧ (0 < len →
     xpos offset s t = x s + offset / len * (x t - x s)
     ∧ ypos offset s t = y s + offset / len * (y t - y s)
     ∧ (0 <= offset <= len → 0 <= offset / len <= 1)
     ∧ (len < offset → 1 < offset / len)).
Proof.
  intros len. split.
  - intros Hx Hy. unfold xpos, ypos, angle, Math.atan2. rewrite Hx, Hy.
    replace (x s - x s) with 0 by ring. replace (y s - y s) with 0 by ring.
    destruct (total_order_T 0 0) as [[H | _] | H]; try lra.
    rewrite cos_0, sin_0. split; ring.
  - intros Hlen.
    assert (Hne : ¬ (x t - x s = 0 ∧ y t - y s = 0)).
    { intros [Hx Hy]. subst len. rewrite Hx, Hy in Hlen.
      replace (0 * 0 + 0 * 0) with 0 in Hlen by ring. rewrite sqrt_0 in Hlen. lra. }
    destruct (label_point_direction offset s t Hne) as [Hx Hy].
    fold len in Hx, Hy. split; [exact Hx |]. split; [exact Hy |].
    split.
    + intros [H0 H1]. split.
      * apply Rmult_le_pos; [lra |]. apply Rlt_le. by apply Rinv_0_lt_compat.
      * apply (Rmult_le_reg_r len); [done |].
        replace (offset / len * len) with offset by (field; lra). lra.
    + intros H1. apply (Rmult_lt_reg_r len); [done |].
      replace (offset / len * len) with offset by (field; lra). lra.
Qed.

Lemma label_placement_witness :
  xpos 60 Sample.node1 Sample.node1 = 100 + 60
  ∧ ypos 60 Sample.node1 Sample.node1 = 100
  ∧ 0 <= 60 / sqrt ((400 - 100) * (400 - 100) + (100 - 100) * (100 - 100)) <= 1.
Proof.
  destruct (label_placement 60 Sample.node1 Sample.node1) as [Hsame _].
  destruct (label_placement 60 Sample.node1 Sample.node2) as [_ Hapart].
  assert (Hlen : sqrt ((400 - 100) * (400 - 100) + (100 - 100) * (100 - 100)) = 300).
  { replace ((400 - 100) * (400 - 100) + (100 - 100) * (100 - 100))
      with (300 * 300) by ring. apply sqrt_square. lra. }
  split; [| split].
  - apply Hsame; reflexivity.
  - apply Hsame; reflexivity.
  - simpl in Hapart. apply Hapart; rewrite Hlen; lra.
Defined.

End PlacementFacts.

(** ** How ticks and highlights compose *)

Section CompositionFacts.

Import Types Dom Render Highlights.
Local Open Scope R_scope.

Lemma attr_overwrite {D} name (f f' : D → Value) (sel : Selection D) :
  attr name f' (attr name f sel) = attr name f' sel.
Proof.
  unfold attr. rewrite map_map. apply map_ext. intros e. simpl.
  apply setAttribute_twice.
Qed.

Lemma style_overwrite {D} name (f f' : D → Value) (sel : Selection D) :
  style name f' (style name f sel) = style name f' sel.
Proof.
  unfold style. rewrite map_map. apply map_ext. intros e. simpl.
  apply setProperty_twice.
Qed.

Lemma attr_style_comm {D} name name' (f f' : D → Value) (sel : Selection D) :
  attr name f (style name' f' sel) = style name' f' (attr name f sel).
Proof. unfold attr, style. rewrite !map_map. by apply map_ext. Qed.

Lemma ticked_overwrites σ σ' tr tr' wd ht wd' ht' sc :
  ticked σ' tr' (ticked σ tr sc wd ht) wd' ht' = ticked σ' tr' sc wd' ht'.
Proof.
  unfold ticked. simpl. f_equal.
  - apply attr_overwrite.
  - apply attr_overwrite.
  - unfold attr. rewrite !map_map. apply map_ext. intros e. simpl.
    unfold setAttribute. simpl. f_equal.
    apply map_eq. intros i. rewrite !lookup_insert.
    repeat case_decide; done.
Qed.

(** X7: nothing of an earlier tick or an earlier highlight survives a
    later one, whatever the store, transform, size, graph, links and
    selection of either, and a tick and a highlight can be taken in
    either order: the scene shows the latest tick and the latest
    highlight only. *)
Theorem latest_tick_and_highlight (σ σ' : Store) (tr tr' : Zoom.ZoomTransform)
    (wd ht wd' ht' : R) (g g' : GraphI) (ls ls' : list LinkI)
    (sel sel' : option ref) (sc : Scene) :
  ticked σ' tr' (ticked σ tr sc wd ht) wd' ht' = ticked σ' tr' sc wd' ht'
  ∧ processHighlights σ' g' ls' sel' (processHighlights σ g ls sel sc)
    = processHighlights σ' g' ls' sel' sc
  ∧ ticked σ' tr (processHighlights σ g ls sel sc) wd ht
    = processHighlights σ g ls sel (ticked σ' tr sc wd ht).
Proof.
  split; [| split].
  - apply ticked_overwrites.
  - unfold processHighlights. destruct sel, sel'; simpl; f_equal;
      apply style_overwrite.
  - unfold ticked, processHighlights. destruct sel; simpl; f_equal;
      try apply attr_style_comm;
      unfold attr, style; rewrite !map_map; by apply map_ext.
Qed.

End CompositionFacts.

(** ** Which nodes a selection lights *)

Section NeighbourFacts.

Import Types Dom Highlights Lifecycle.

Lemma comma_literal : "," = String comma EmptyString.
Proof. reflexivity. Qed.

Lemma key_nil b : key "" b = String comma b.
Proof. reflexivity. Qed.

Lemma key_cons ch a b : key (String ch a) b = String ch (key a b).
Proof. reflexivity. Qed.

(** Two keys with comma-free first halves agree only if both halves
    do. *)
Lemma key_inj a b c d :
  commaFree a = true → commaFree c = true → key a b = key c d → a = c ∧ b = d.
Proof.
  revert c.
  induction a as [| ch a IH]; intros [| ch' c] Ha Hc Heq;
    rewrite ?key_nil, ?key_cons in Heq; cbn [commaFree] in *.
  - by injection Heq as ->.
  - injection Heq as <- _. apply andb_prop in Hc as [Hc _].
    by rewrite Ascii.eqb_refl in Hc.
  - injection Heq as -> _. apply andb_prop in Ha as [Ha _].
    by rewrite Ascii.eqb_refl in Ha.
  - injection Heq as -> Heq.
    apply andb_prop in Ha as [_ Ha]. apply andb_prop in Hc as [_ Hc].
    destruct (IH c Ha Hc Heq) as [-> ->]. done.
Qed.

(** With commas in the addresses two different pairs can share a key. *)
Example key_collision : key "a,b" "c" = key "a" "b,c".
Proof. reflexivity. Qed.

Lemma highlight_style σ g ls sel sc :
  Forall2
    (λ e e',
       styles e' !! "opacity"
       = Some (if neighboring σ (linkedByIndex σ g ls) sel (datum e)
                  || neighboring σ (linkedByIndex σ g ls) (datum e) sel
               then opacityFull else opacityDim))
    (node sc) (node (processHighlights σ g ls (Some sel) sc)).
Proof.
  simpl. apply Forall2_map_intro. intros e. simpl. by rewrite lookup_insert_eq.
Qed.

(** X8: a link among those passed in, whose address fields are those
    of its two nodes, lights the node at its far end when the selected
    node is at its near end, in either direction. *)
Theorem link_lights_far_end (σ : Store) (g : GraphI) (ls : list LinkI)
    (sel : ref) (sc : Scene) (l : LinkI) :
  l ∈ ls → addressed σ l →
  (source l = sel →
   Forall2
     (λ e e', datum e = target l → styles e' !! "opacity" = Some opacityFull)
     (node sc) (node (processHighlights σ g ls (Some sel) sc)))
  ∧ (target l = sel →
     Forall2
       (λ e e', datum e = source l → styles e' !! "opacity" = Some opacityFull)
       (node sc) (node (processHighlights σ g ls (Some sel) sc))).
Proof.
  intros Hl [Hs Ht].
  assert (Hk : key (ieeeAddr (σ (source l))) (ieeeAddr (σ (target l)))
               ∈ linkedByIndex σ g ls).
  { apply elem_of_linkedByIndex. right. exists l. by rewrite Hs, Ht. }
  split; intros <-; (eapply Forall2_impl; [apply highlight_style |]);
    intros e e' -> ->; unfold neighboring; simpl.
  - by rewrite (bool_decide_eq_true_2 _ Hk).
  - rewrite (bool_decide_eq_true_2 _ Hk). by rewrite orb_true_r.
Qed.

Lemma link_lights_far_end_witness :
  Forall2
    (λ e e', datum e = 2%positive → styles e' !! "opacity" = Some opacityFull)
    (node Sample.scene0)
    (node (processHighlights Sample.store0 Sample.graph0 [Sample.link12]
             (Some 1%positive) Sample.scene0)).
Proof.
  apply (proj1 (link_lights_far_end Sample.store0 Sample.graph0 [Sample.link12]
                  1%positive Sample.scene0 Sample.link12
                  ltac:(set_solver) ltac:(split; reflexivity))).
  reflexivity.
Defined.

(** X9: with comma-free addresses, a node element is lit only if its
    address is the selected node's and belongs to a node of the graph,
    or if one of the links passed in joins the two addresses, in one
    direction or the other. *)
Theorem highlight_only_related (σ : Store) (g : GraphI) (ls : list LinkI)
    (sel : ref) (sc : Scene) :
  (∀ n, n ∈ nodes g → commaFree (ieeeAddr (σ n)) = true) →
  (∀ l, l ∈ ls → commaFree (sourceIeeeAddr l) = true) →
  commaFree (ieeeAddr (σ sel)) = true →
  Forall2
    (λ e e',
       commaFree (ieeeAddr (σ (datum e))) = true →
       styles e' !! "opacity" = Some opacityFull →
       (ieeeAddr (σ (datum e)) = ieeeAddr (σ sel)
        ∧ ∃ n, n ∈ nodes g ∧ ieeeAddr (σ n) = ieeeAddr (σ sel))
       ∨ (∃ l, l ∈ ls
               ∧ ((sourceIeeeAddr l = ieeeAddr (σ sel)
                   ∧ targetIeeeAddr l = ieeeAddr (σ (datum e)))
                  ∨ (sourceIeeeAddr l = ieeeAddr (σ (datum e))
                     ∧ targetIeeeAddr l = ieeeAddr (σ sel)))))
    (node sc) (node (processHighlights σ g ls (Some sel) sc)).
Proof.
  intros Hg Hls Hsel.
  eapply Forall2_impl; [apply highlight_style |].
  intros e e' -> He Hfull.
  destruct (neighboring σ (linkedByIndex σ g ls) sel (datum e)
            || neighboring σ (linkedByIndex σ g ls) (datum e) sel) eqn:E.
  2: { exfalso. apply opacity_values_differ. congruence. }
  clear Hfull. unfold neighboring in E.
  apply orb_prop in E as [E | E]; apply bool_decide_eq_true_1 in E;
    apply elem_of_linkedByIndex in E as [(n & Hn & Hk) | (l & Hl & Hk)].
  - apply key_inj in Hk as [H1 H2]; [| done | by apply Hg].
    left. split; [congruence | by exists n].
  - apply key_inj in Hk as [H1 H2]; [| done | by apply Hls].
    right. exists l. split; [done |]. left. by split.
  - apply key_inj in Hk as [H1 H2]; [| done | by apply Hg].
    left. split; [congruence | exists n; split; [done | congruence]].
  - apply key_inj in Hk as [H1 H2]; [| done | by apply Hls].
    right. exists l. split; [done |]. right. by split.
Qed.

Lemma highlight_only_related_witness :
  Forall2
    (λ e e',
       commaFree (ieeeAddr (Sample.store0 (datum e))) = true →
       styles e' !! "opacity" = Some opacityFull →
       (ieeeAddr (Sample.store0 (datum e)) = ieeeAddr (Sample.store0 1%positive)
        ∧ ∃ n, n ∈ nodes Sample.graph0
               ∧ ieeeAddr (Sample.store0 n) = ieeeAddr (Sample.store0 1%positive))
       ∨ (∃ l, l ∈ [Sample.link12]
               ∧ ((sourceIeeeAddr l = ieeeAddr (Sample.store0 1%positive)
                   ∧ targetIeeeAddr l = ieeeAddr (Sample.store0 (datum e)))
                  ∨ (sourceIeeeAddr l = ieeeAddr (Sample.store0 (datum e))
                     ∧ targetIeeeAddr l = ieeeAddr (Sample.store0 1%positive)))))
    (node Sample.scene0)
    (node (processHighlights Sample.store0 Sample.graph0 [Sample.link12]
             (Some 1%positive) Sample.scene0)).
Proof.
  apply highlight_only_related.
  - intros n Hn. simpl in Hn. set_unfold.
    destruct Hn as [-> | [-> | [-> | []]]]; reflexivity.
  - intros l Hl. set_unfold. destruct Hl as [-> | []]. reflexivity.
  - reflexivity.
Defined.

End NeighbourFacts.

(** ** The link filter and the click *)

Section StateFacts.

Import Types Dom Highlights Forces MapComponent Lifecycle.

Lemma visible_app g vs vs' l :
  l ∈ visible g (vs ++ vs') ↔ l ∈ visible g vs ∨ l ∈ visible g vs'.
Proof. rewrite !elem_of_visible, elem_of_app. tauto. Qed.

(** X10: ticking a relationship shows exactly the links that were
    visible and those of that relationship; unticking it hides exactly
    the links of that relationship; either way the selection, the
    size, the graph, the simulation and the transform are untouched. *)
Theorem filter_change_visible (checked : bool) (v : Z) (c : Component) :
  let c' := onLinkTypeFilterChange checked v c in
  (∀ l : LinkI,
     l ∈ visible (networkGraph c') (visibleLinks (state c'))
     ↔ (if checked
        then l ∈ visible (networkGraph c) (visibleLinks (state c))
             ∨ (l ∈ links (networkGraph c) ∧ relationship l = v)
        else l ∈ visible (networkGraph c) (visibleLinks (state c))
             ∧ relationship l ≠ v))
  ∧ selectedNode (state c') = selectedNode (state c)
  ∧ width (state c') = width (state c)
  ∧ height (state c') = height (state c)
  ∧ networkGraph c' = networkGraph c
  ∧ simulation c' = simulation c
  ∧ transform c' = transform c.
Proof.
  intros c'. subst c'. split; [| done]. intros l.
  unfold onLinkTypeFilterChange. cbv zeta. simpl. destruct checked.
  - rewrite visible_app, !elem_of_visible, list_elem_of_singleton. tauto.
  - rewrite !elem_of_visible, list_elem_of_filter. tauto.
Qed.

(** X11: unticking removes every copy of the value, so it undoes any
    number of earlier ticks and is idempotent; ticking appends without
    looking for the value, so the list grows by one each time, but a
    second copy shows no further link. *)
Theorem filter_change_composes (v : Z) (c : Component) :
  onLinkTypeFilterChange false v (onLinkTypeFilterChange true v c)
  = onLinkTypeFilterChange false v c
  ∧ onLinkTypeFilterChange false v (onLinkTypeFilterChange false v c)
    = onLinkTypeFilterChange false v c
  ∧ (v ∉ visibleLinks (state (onLinkTypeFilterChange false v c)))
  ∧ visibleLinks (state (onLinkTypeFilterChange true v
                           (onLinkTypeFilterChange false v c)))
    = filter (λ r, r ≠ v) (visibleLinks (state c)) ++ [v]
  ∧ length (visibleLinks (state (onLinkTypeFilterChange true v c)))
    = S (length (visibleLinks (state c)))
  ∧ (v ∈ visibleLinks (state c) →
     visible (networkGraph c)
       (visibleLinks (state (onLinkTypeFilterChange true v c)))
     = visible (networkGraph c) (visibleLinks (state c))).
Proof.
  unfold onLinkTypeFilterChange, setVisibleLinks. simpl.
  split; [| split; [| split; [| split; [| split]]]].
  - f_equal. f_equal. rewrite filter_app.
    rewrite (filter_cons_False _ v) by (intros H; by apply H).
    by rewrite filter_nil, app_nil_r.
  - f_equal. f_equal. apply list_filter_filter_l. tauto.
  - rewrite list_elem_of_filter. tauto.
  - done.
  - rewrite length_app. simpl. lia.
  - intros Hv. unfold visible. apply list_filter_iff. intros l.
    rewrite elem_of_app, list_elem_of_singleton.
    split; [intros [H | ->]; done | by left].
Qed.

Lemma filter_change_composes_witness :
  visible Sample.graph0
    (visibleLinks (state (onLinkTypeFilterChange true 1 Sample.component0)))
  = visible Sample.graph0 (visibleLinks (state Sample.component0)).
Proof.
  apply (filter_change_composes 1 Sample.component0).
  simpl. set_solver.
Defined.

(** X12: a click and the update that follows.  With no node
    selected, the clicked node becomes the selection, and the update
    lights every node element carrying its address, provided the
    address is that of a node of the graph.  With a node selected, a
    click on any node, the selected one or another, clears the
    selection, and the update gives every node element opacity 1: a
    click never moves the selection from one node to another. *)
Theorem click_then_update (d : ref) (w w' : World) :
  updateNodes (withThis (onClick d (this w)) w) = Some w' →
  (selectedNode (state (this w)) = None →
   selectedNode (state (this w')) = Some d
   ∧ ((∃ n, n ∈ nodes (networkGraph (this w))
            ∧ ieeeAddr (store w n) = ieeeAddr (store w d)) →
      Forall2
        (λ e e',
           ieeeAddr (store w (datum e)) = ieeeAddr (store w d) →
           styles e' !! "opacity" = Some opacityFull)
        (node (scene (page w))) (node (scene (page w')))))
  ∧ (∀ s : ref,
       selectedNode (state (this w)) = Some s →
       selectedNode (state (this w')) = None
       ∧ Forall (λ e', styles e' !! "opacity" = Some opacityFull)
           (node (scene (page w'))))
  ∧ visibleLinks (state (this w')) = visibleLinks (state (this w))
  ∧ width (state (this w')) = width (state (this w))
  ∧ height (state (this w')) = height (state (this w)).
Proof.
  intros Hupd.
  pose proof (updateNodes_scene _ _ Hupd) as Hsc.
  destruct (updateNodes_state _ _ Hupd) as [Hst _].
  unfold withThis, onClick, setSelectedNode in Hsc, Hst. simpl in Hsc, Hst.
  rewrite Hst, Hsc. simpl.
  split; [| split; [| done]].
  - intros Hnone. rewrite Hnone. split; [done |].
    intros (n & Hn & Haddr).
    eapply Forall2_impl; [apply highlight_style |].
    intros e e' -> He. f_equal. unfold neighboring.
    rewrite bool_decide_eq_true_2; [done |].
    apply elem_of_linkedByIndex. left. exists n. split; [done |].
    by rewrite He, Haddr.
  - intros s Hs. rewrite Hs. split; [done |].
    apply Forall_map_intro. intros e. simpl. by rewrite lookup_insert_eq.
Qed.

Lemma click_then_update_witness :
  selectedNode
    (state (this (default Sample.world0
                    (updateNodes
                       (withThis (onClick 2%positive (this Sample.world0))
                          Sample.world0)))))
  = Some 2%positive
  ∧ selectedNode
      (state (this (default Sample.world1
                      (updateNodes
                         (withThis (onClick 2%positive (this Sample.world1))
                            Sample.world1)))))
    = None.
Proof.
  split.
  - apply (click_then_update 2%positive Sample.world0
             (default Sample.world0
                (updateNodes
                   (withThis (onClick 2%positive (this Sample.world0))
                      Sample.world0)))); reflexivity.
  - apply (proj1 (proj2 (click_then_update 2%positive Sample.world1
                           (default Sample.world1
                              (updateNodes
                                 (withThis (onClick 2%positive (this Sample.world1))
                                    Sample.world1)))
                           eq_refl)) 1%positive).
    reflexivity.
Defined.

End StateFacts.

(** ** The lifecycle *)

Section LifecycleFacts.

Import Types Dom Render Highlights Forces MapComponent Lifecycle.
Local Open Scope R_scope.





Lemma updateNodes_Some w f :
  getForce "link" (forces (simulation (this w))) = Some (OfLink f) →
  updateNodes w
  = Some
      {| this :=
           {| networkGraph := networkGraph (this w);
              state := state (this w);
              simulation :=
                {| forces :=
                     setForce "link"
                       (OfLink (setLinks (visible (networkGraph (this w))
                                            (visibleLinks (state (this w)))) f))
                       (forces (simulation (this w)));
                   simulationNodes := nodes (networkGraph (this w));
                   onTick := Some {| captured_width := width (state (this w));
                                     captured_height := height (state (this w)) |};
                   alphaTarget := 0.3;
                   restarted := true |};
              transform := transform (this w) |};
         page :=
           {| everything := everything (page w);
              scene := processHighlights
                         (initializeNodes 0 (nodes (networkGraph (this w)))
                            (store w))
                         (networkGraph (this w))
                         (visible (networkGraph (this w))
                            (visibleLinks (state (this w))))
                         (selectedNode (state (this w))) (scene (page w));
              onZoom := Some {| captured_width := width (state (this w));
                                captured_height := height (state (this w)) |} |};
         store := initializeNodes 0 (nodes (networkGraph (this w))) (store w) |}.
Proof. intros H. unfold updateNodes. cbv zeta. by rewrite H. Qed.


(** X13: [updateNodes] throws exactly when the simulation holds no
    link force under the name [link]: on the instance as constructed
    it throws, after [initPage] it does not. *)
Theorem updateNodes_needs_link_force (w : World) :
  (updateNodes w = None
   ↔ ∀ f, getForce "link" (forces (simulation (this w))) ≠ Some (OfLink f))
  ∧ (∀ (g : GraphI) (firstVisible : Z),
       updateNodes (withThis (construct g firstVisible) w) = None)
  ∧ (∀ (wd ht : R) (c : Component),
       is_Some (updateNodes (withThis (initPage wd ht c) w))).
Proof.
  split; [| split].
  - split.
    + intros Hnone f Hf. by rewrite (updateNodes_Some w f Hf) in Hnone.
    + intros Hno. unfold updateNodes. cbv zeta.
      destruct (getForce "link" _) as [[f | | | | |] |]; try done.
      by destruct (Hno f).
  - done.
  - intros wd ht c. unfold updateNodes. simpl. by eexists.
Qed.



End LifecycleFacts.

(** ** What stays fixed once the component is mounted *)

Section MountedFacts.

Import Types Dom Render Highlights Forces MapComponent Lifecycle.
Local Open Scope R_scope.

Lemma mountedAt_initPage wd ht c ev sc σ :
  mountedAt wd ht
    {| this := initPage wd ht c;
       page := {| everything := ev; scene := sc; onZoom := None |};
       store := σ |}.
Proof.
  unfold mountedAt. simpl. repeat split; try done. by exists [].
Qed.

Lemma tickEvent_keeps w :
  this (tickEvent w) = this w ∧ onZoom (page (tickEvent w)) = onZoom (page w).
Proof. unfold tickEvent. destruct (onTick _); split; reflexivity. Qed.

Lemma zoomEvent_keeps tr w :
  state (this (zoomEvent tr w)) = state (this w)
  ∧ simulation (this (zoomEvent tr w)) = simulation (this w)
  ∧ onZoom (page (zoomEvent tr w)) = onZoom (page w).
Proof.
  unfold zoomEvent. destruct (onZoom (page w)) eqn:E; simpl; repeat split; done.
Qed.

Lemma mountedAt_step wd ht w w' : mountedAt wd ht w → step w w' → mountedAt wd ht w'.
Proof.
  intros (Hw & Hh & (ls & Hf) & Hz & Ht) Hstep.
  destruct Hstep as [w w' Hupd | w | tr w | d w | checked v w | g w | sc w | σ w].
  - assert (Hlink : getForce "link" (forces (simulation (this w)))
                    = Some (OfLink {| link_id := Some ieeeAddr;
                                      link_distance := Some Distance.getDistance;
                                      link_strength := Some 0.2;
                                      link_links := ls |})).
    { by rewrite Hf. }
    rewrite (updateNodes_Some w _ Hlink) in Hupd. injection Hupd as <-.
    unfold mountedAt. simpl. rewrite Hf, Hw, Hh.
    split; [done |]. split; [done |]. split; [by eexists |].
    split; intros cap [= <-]; done.
  - destruct (tickEvent_keeps w) as [Hthis Hzoom].
    unfold mountedAt. rewrite Hthis, Hzoom. repeat split; eauto.
  - destruct (zoomEvent_keeps tr w) as (Hst & Hsim & Hzoom).
    unfold mountedAt. rewrite Hst, Hsim, Hzoom. repeat split; eauto.
  - unfold mountedAt; simpl; repeat split; eauto.
  - unfold mountedAt; simpl; repeat split; eauto.
  - unfold mountedAt; simpl; repeat split; eauto.
  - unfold mountedAt; simpl; repeat split; eauto.
  - unfold mountedAt; simpl; repeat split; eauto.
Qed.

(** X15: from the mount on, through any sequence of updates, ticks,
    zoom events, clicks, filter changes, new graphs, renders and moves
    of the nodes, the size in the state stays the one measured at the
    mount, the forces stay those [updateForces] set for that size (only
    the links of the link force change), every registered listener has
    captured that size, and [updateNodes] does not throw. *)
Theorem mounted_invariant (wd ht : R) (c : Component) (ev : Element unit)
    (sc : Scene) (σ : Store) (w : World) :
  rtc step
    {| this := initPage wd ht c;
       page := {| everything := ev; scene := sc; onZoom := None |};
       store := σ |}
    w →
  width (state (this w)) = wd
  ∧ height (state (this w)) = ht
  ∧ (∃ ls, forces (simulation (this w)) = forcesFor wd ht ls)
  ∧ (∀ cap, onZoom (page w) = Some cap →
            cap = {| captured_width := wd; captured_height := ht |})
  ∧ (∀ cap, onTick (simulation (this w)) = Some cap →
            cap = {| captured_width := wd; captured_height := ht |})
  ∧ is_Some (updateNodes w).
Proof.
  intros Hrtc.
  assert (Hinv : mountedAt wd ht w).
  { eapply (rtc_ind_r (mountedAt wd ht)); [apply mountedAt_initPage | | exact Hrtc].
    intros y z _ Hs Hy. by eapply mountedAt_step. }
  destruct Hinv as (Hw & Hh & (ls & Hf) & Hz & Ht).
  repeat split; try done; [by exists ls |].
  erewrite updateNodes_Some; [by eexists |]. by rewrite Hf.
Qed.

Lemma mounted_invariant_witness :
  width (state (this (zoomEvent {| Zoom.k := 2; Zoom.x := 0; Zoom.y := 0 |}
                        (withThis (onClick 1%positive (this Sample.world0))
                           Sample.world0))))
  = 200.
Proof.
  apply (mounted_invariant 200 200 Sample.component0 (Sample.element tt)
           Sample.scene0 Sample.store0).
  eapply rtc_l; [apply (step_click 1%positive) |].
  eapply rtc_l; [apply (step_zoom {| Zoom.k := 2; Zoom.x := 0; Zoom.y := 0 |}) |].
  apply rtc_refl.
Defined.

End MountedFacts.

(** ** Sequences of zoom events and ticks *)

Section EventFacts.

Import Types Dom Render Highlights Forces MapComponent Lifecycle.
Local Open Scope R_scope.

(** X16: zoom events do not accumulate: after two of them the world
    is as after the second alone, each event's transform being
    absolute; once the zoom listener is installed, a tick before a zoom
    event leaves no trace; and a tick after a tick changes nothing. *)
Theorem zoom_events_do_not_accumulate (tr tr' : Zoom.ZoomTransform) (w : World) :
  zoomEvent tr' (zoomEvent tr w) = zoomEvent tr' w
  ∧ (is_Some (onZoom (page w)) → zoomEvent tr (tickEvent w) = zoomEvent tr w)
  ∧ tickEvent (tickEvent w) = tickEvent w.
Proof.
  split; [| split].
  - unfold zoomEvent. destruct (onZoom (page w)) as [c |] eqn:E; simpl;
      rewrite ?E; [| done].
    unfold zoomHandler. simpl. f_equal. f_equal.
    + unfold setAttribute. simpl. f_equal. apply insert_insert_eq.
    + apply ticked_overwrites.
  - intros [c' Hz]. unfold tickEvent.
    destruct (onTick (simulation (this w))) as [c |]; [| done].
    unfold zoomEvent. simpl. rewrite Hz.
    unfold zoomHandler. simpl. f_equal. f_equal. apply ticked_overwrites.
  - unfold tickEvent.
    destruct (onTick (simulation (this w))) as [c |] eqn:E; simpl; rewrite ?E;
      [| done].
    unfold tickHandler. simpl. f_equal. f_equal. apply ticked_overwrites.
Qed.

Lemma zoom_events_do_not_accumulate_witness :
  zoomEvent Zoom.zoomIdentity
    (tickEvent (default Sample.world0 (updateNodes Sample.world0)))
  = zoomEvent Zoom.zoomIdentity (default Sample.world0 (updateNodes Sample.world0)).
Proof.
  apply (zoom_events_do_not_accumulate Zoom.zoomIdentity Zoom.zoomIdentity
           (default Sample.world0 (updateNodes Sample.world0))).
  simpl. by eexists.
Defined.

End EventFacts.
